(** * Tennis momentum and swing detection

    A shallow embedding of [src/features/momentum.py],
    [src/features/swings.py] and the derived columns of
    [src/data/match.py], together with the part of the pandas interface
    these files call.

    Numbers.  The swing detector, the dispatch of [compute_momentum] and
    the derived columns are modelled with cells in [option Q]: [None] is
    NaN and [Some x] the number [x], with exact rational arithmetic in
    place of rounding (infinities are left out); equalities between
    computed cells are then stated with [Qeq] ([==]).  The two momentum
    functions are modelled a second time in module [Float64], over binary64
    numbers ([PrimFloat.float]) and with the loops of [rolling] and [ewm]
    rounding included; the properties on the value of a momentum cell are
    proved there.

    Index.  A Series carries the default [RangeIndex] 0..n-1 (what
    [get_match] produces with [reset_index(drop=True)]), so that a label is
    also a position; [get_loc] is still called where the source calls it.

    Exceptions.  A raising call returns [Raise e], where [e] records the
    Python exception class and its message. *)

From Stdlib Require Import String List ZArith QArith Qabs Qround Qfield Bool Lia.
From Stdlib Require Import Lqa Sorting.Sorted.
From Equations Require Import Equations.
From Stdlib Require PrimFloat Uint63 FloatClass DecimalString.
Import ListNotations.

(** ** Exceptions and the error monad *)

Inductive exn : Type :=
| ValueError (msg : string)
| KeyError (msg : string)
| IndexError (msg : string).

Inductive result (A : Type) : Type :=
| Ok (a : A)
| Raise (e : exn).

Arguments Ok {A} a.
Arguments Raise {A} e.

Definition bind {A B : Type} (r : result A) (k : A -> result B) : result B :=
  match r with
  | Ok a => k a
  | Raise e => Raise e
  end.

Notation "x <- r ;; k" := (bind r (fun x => k))
  (at level 61, r at next level, right associativity).

Fixpoint mapM {A B : Type} (f : A -> result B) (l : list A) : result (list B) :=
  match l with
  | [] => Ok []
  | a :: l' => b <- f a ;; bs <- mapM f l' ;; Ok (b :: bs)
  end.

Fixpoint zip_with {A B C : Type} (f : A -> B -> C) (l : list A) (r : list B)
  : list C :=
  match l, r with
  | a :: l', b :: r' => f a b :: zip_with f l' r'
  | _, _ => []
  end.

(** ** The pandas operations used by the two modules *)

Module Pandas.

Definition value : Type := option Q.
Definition Series : Type := list value.

Definition Qltb (x y : Q) : bool := negb (Qle_bool y x).

(** Arithmetic and comparisons on cells; a comparison with NaN is false. *)
Definition vsub (a b : value) : value :=
  match a, b with
  | Some x, Some y => Some (x - y)
  | _, _ => None
  end.

Definition vabs (a : value) : value := option_map Qabs a.

Definition vgt (a b : value) : bool :=
  match a, b with
  | Some x, Some y => Qltb y x
  | _, _ => false
  end.

Definition vlt (a b : value) : bool := vgt b a.

Definition vge (a b : value) : bool :=
  match a, b with
  | Some x, Some y => Qle_bool y x
  | _, _ => false
  end.

Definition vle (a b : value) : bool := vge b a.

Definition isna (v : value) : bool :=
  match v with
  | None => true
  | Some _ => false
  end.

(** [s.isna().all()] *)
Definition isna_all (s : Series) : bool := forallb isna s.

(** [s.abs()] *)
Definition abs (s : Series) : Series := map vabs s.

(** [s.shift(1)] *)
Definition shift1 (s : Series) : Series :=
  match s with
  | [] => []
  | _ :: _ => None :: removelast s
  end.

(** [s.diff()]: [s - s.shift(1)] *)
Definition diff (s : Series) : Series := zip_with vsub s (shift1 s).

(** [s.replace(0, np.nan)] *)
Definition replace_zero_nan (s : Series) : Series :=
  map (fun v => match v with
                | Some x => if Qeq_bool x 0 then None else Some x
                | None => None
                end) s.

(** [s.ffill()]: a NaN cell takes the last valid cell before it. *)
Fixpoint ffill_from (last : value) (s : Series) : Series :=
  match s with
  | [] => []
  | Some x :: s' => Some x :: ffill_from (Some x) s'
  | None :: s' => last :: ffill_from last s'
  end.

Definition ffill (s : Series) : Series := ffill_from None s.

Definition ValueError_span : exn :=
  ValueError "span must satisfy: span >= 1".

Definition ValueError_percentile : exn :=
  ValueError "percentiles should all be in the interval [0, 1]".

(** [str(n)] of an integer, as an f-string prints it *)
Definition repr_int (n : Z) : string :=
  DecimalString.NilZero.string_of_int (Z.to_int n).

Definition ValueError_min_periods (min_periods window : Z) : exn :=
  ValueError ("min_periods " ++ repr_int min_periods
              ++ " must be <= window " ++ repr_int window).

Definition ValueError_window : exn :=
  ValueError "window must be an integer 0 or greater".

(** *** [s.ewm(span=span, adjust=False).mean()]

    The loop of pandas' [ewm] aggregation with [adjust=False],
    [ignore_na=False], no [times] and the effective [min_periods] of 1.
    [new_wt] starts as [alpha]; with [com == 1] the loop resets it to
    [1 - old_wt] before each weighted update. *)

Record ewm_state : Type := mk_ewm
  { weighted : value; old_wt : Q; new_wt : Q; ewm_nobs : nat }.

Definition ewm_com (span : Z) : Q := (inject_Z span - 1) / 2.
Definition ewm_alpha (span : Z) : Q := 1 / (1 + ewm_com span).

Definition ewm_output (st : ewm_state) : value :=
  if (1 <=? ewm_nobs st)%nat then weighted st else None.

Definition ewm_init (alpha : Q) (v : value) : ewm_state :=
  mk_ewm v 1 alpha (if isna v then 0 else 1).

Definition ewm_step (com old_wt_factor : Q) (st : ewm_state) (cur : value)
  : ewm_state :=
  let nobs := (ewm_nobs st + (if isna cur then 0 else 1))%nat in
  match weighted st with
  | Some w =>
      let old_wt' := old_wt st * old_wt_factor in
      match cur with
      | Some c =>
          if Qeq_bool w c then mk_ewm (Some w) 1 (new_wt st) nobs
          else
            let new_wt' :=
              if Qeq_bool com 1 then 1 - old_wt' else new_wt st in
            mk_ewm (Some ((old_wt' * w + new_wt' * c) / (old_wt' + new_wt')))
                   1 new_wt' nobs
      | None => mk_ewm (Some w) old_wt' (new_wt st) nobs
      end
  | None => mk_ewm cur (old_wt st) (new_wt st) nobs
  end.

Fixpoint ewm_loop (com old_wt_factor : Q) (st : ewm_state) (s : Series)
  : Series :=
  match s with
  | [] => []
  | cur :: s' =>
      let st' := ewm_step com old_wt_factor st cur in
      ewm_output st' :: ewm_loop com old_wt_factor st' s'
  end.

Definition ewm_mean (s : Series) (span : Z) : result Series :=
  if (span <? 1)%Z then Raise ValueError_span
  else
    let com := ewm_com span in
    let alpha := ewm_alpha span in
    match s with
    | [] => Ok []
    | v :: s' =>
        let st := ewm_init alpha v in
        Ok (ewm_output st :: ewm_loop com (1 - alpha) st s')
    end.

(** *** [s.rolling(window=window, min_periods=1).mean()]

    The sliding-sum loop of pandas' [roll_mean] over the bounds of a fixed
    window: [start i = max (i + 1 - window) 0], [end i = i + 1].  With
    exact sums the compensation terms of the loop are zero, its clamp of a
    mean of the wrong sign never applies and its shortcut for a window of
    equal cells returns their mean, so the three are left out here; module
    [Float64] below has them. *)

Record roll_state : Type := mk_roll { sum_x : Q; roll_nobs : Z }.

Definition add_mean (st : roll_state) (v : value) : roll_state :=
  match v with
  | Some x => mk_roll (sum_x st + x) (roll_nobs st + 1)
  | None => st
  end.

Definition remove_mean (st : roll_state) (v : value) : roll_state :=
  match v with
  | Some x => mk_roll (sum_x st - x) (roll_nobs st - 1)
  | None => st
  end.

Definition calc_mean (minp : Z) (st : roll_state) : value :=
  if ((minp <=? roll_nobs st) && (0 <? roll_nobs st))%Z
  then Some (sum_x st / inject_Z (roll_nobs st))
  else None.

Definition win_start (window i : nat) : nat := (i + 1 - window)%nat.
Definition win_end (i : nat) : nat := (i + 1)%nat.

(** the cells at positions [from .. to - 1] *)
Definition cells (s : Series) (from to : nat) : Series :=
  firstn (to - from) (skipn from s).

Definition roll_step (s : Series) (window i : nat) (st : roll_state)
  : roll_state :=
  if ((i =? 0) || (win_end (i - 1) <=? win_start window i))%nat then
    fold_left add_mean (cells s (win_start window i) (win_end i))
              (mk_roll 0 0)
  else
    let st1 := fold_left remove_mean
                 (cells s (win_start window (i - 1)) (win_start window i)) st in
    fold_left add_mean (cells s (win_end (i - 1)) (win_end i)) st1.

Fixpoint roll_loop (s : Series) (window : nat) (minp : Z) (n i : nat)
  (st : roll_state) : Series :=
  match n with
  | O => []
  | S n' =>
      let st' := roll_step s window i st in
      calc_mean minp st' :: roll_loop s window minp n' (S i) st'
  end.

Definition rolling_mean (s : Series) (window : Z) (min_periods : Z)
  : result Series :=
  if (window <? min_periods)%Z
  then Raise (ValueError_min_periods min_periods window)
  else if (window <? 0)%Z
  then Raise ValueError_window
  else Ok (roll_loop s (Z.to_nat window) min_periods (length s) 0
             (mk_roll 0 0)).

(** *** [s.quantile(q)], linear interpolation over the valid cells *)

Definition Qsum (xs : list Q) : Q := fold_right Qplus 0 xs.

Definition dropna (s : Series) : list Q :=
  flat_map (fun v => match v with Some x => [x] | None => [] end) s.

Fixpoint insert_sorted (x : Q) (l : list Q) : list Q :=
  match l with
  | [] => [x]
  | y :: l' => if Qle_bool x y then x :: l else y :: insert_sorted x l'
  end.

Definition sort_values (l : list Q) : list Q :=
  fold_right insert_sorted [] l.

Definition quantile (s : Series) (q : Q) : result value :=
  if negb (Qle_bool 0 q && Qle_bool q 1)
  then Raise ValueError_percentile
  else
    match sort_values (dropna s) with
    | [] => Ok None
    | (x0 :: _) as vs =>
        let n := Z.of_nat (length vs) in
        let h := inject_Z (n - 1) * q in
        let lo := Qfloor h in
        let hi := Z.min (lo + 1) (n - 1) in
        let a := nth (Z.to_nat lo) vs x0 in
        let b := nth (Z.to_nat hi) vs x0 in
        Ok (Some (a + (b - a) * (h - inject_Z lo)))
    end.

(** *** Positional and label access *)

Definition IndexError_iloc : exn :=
  IndexError "single positional indexer is out-of-bounds".

(** [s.iloc[p]]: a negative position counts from the end. *)
Definition iloc {A : Type} (s : list A) (p : Z) : result A :=
  let n := Z.of_nat (length s) in
  let q := if (p <? 0)%Z then (n + p)%Z else p in
  if ((q <? 0) || (n <=? q))%Z then Raise IndexError_iloc
  else
    match nth_error s (Z.to_nat q) with
    | Some v => Ok v
    | None => Raise IndexError_iloc
    end.

Fixpoint set_nth {A : Type} (n : nat) (a : A) (l : list A) : list A :=
  match l, n with
  | [], _ => []
  | _ :: l', O => a :: l'
  | x :: l', S n' => x :: set_nth n' a l'
  end.

(** [s.iloc[p] = a] *)
Definition iloc_set {A : Type} (s : list A) (p : Z) (a : A)
  : result (list A) :=
  let n := Z.of_nat (length s) in
  let q := if (p <? 0)%Z then (n + p)%Z else p in
  if ((q <? 0) || (n <=? q))%Z then Raise IndexError_iloc
  else Ok (set_nth (Z.to_nat q) a s).

(** [s.index.get_loc(label)] on the range index of [s] *)
Definition get_loc {A : Type} (s : list A) (label : Z) : result Z :=
  if ((0 <=? label) && (label <? Z.of_nat (length s)))%Z then Ok label
  else Raise (KeyError "label not in index").

(** [b[b].index.to_list()]: the labels of the true cells of a boolean
    series, the first cell carrying the label [i]. *)
Fixpoint true_labels (i : Z) (b : list bool) : list Z :=
  match b with
  | [] => []
  | true :: b' => i :: true_labels (i + 1) b'
  | false :: b' => true_labels (i + 1) b'
  end.

(** A DataFrame, as far as [compute_momentum] looks at it: named columns. *)
Definition DataFrame : Type := list (string * Series).

Definition columns (df : DataFrame) : list string := map fst df.

Definition has_column (df : DataFrame) (c : string) : bool :=
  existsb (String.eqb c) (columns df).

Definition KeyError_column (c : string) : exn := KeyError c.

(** [df[c]] *)
Fixpoint getitem (df : DataFrame) (c : string) : result Series :=
  match df with
  | [] => Raise (KeyError_column c)
  | (c', s) :: df' => if String.eqb c c' then Ok s else getitem df' c
  end.

End Pandas.

(** ** [src/features/momentum.py] *)

Module Momentum.
Import Pandas.

Definition rolling_momentum (point_result : Series) (window : Z)
  : result Series :=
  rolling_mean point_result window 1.

Definition ewm_momentum (series : Series) (span : Z) : result Series :=
  ewm_mean series span.

Definition compute_momentum (df_match : DataFrame) (method : string)
  (window span : Z) (point_col serve_adj_col : string) : result Series :=
  if String.eqb method "rm" then
    if negb (has_column df_match point_col)
    then Raise (KeyError ("Missing '" ++ point_col ++ "' for method=rm"))
    else s <- getitem df_match point_col ;; rolling_momentum s window
  else if String.eqb method "ewm" then
    if negb (has_column df_match point_col)
    then Raise (KeyError ("Missing '" ++ point_col ++ "' for method=ewm"))
    else s <- getitem df_match point_col ;; ewm_momentum s span
  else if String.eqb method "srv_ewm" then
    if negb (has_column df_match serve_adj_col)
    then Raise (KeyError ("Missing '" ++ serve_adj_col
                          ++ "' for method=srv_ewm"))
    else s <- getitem df_match serve_adj_col ;; ewm_momentum s span
  else Raise (ValueError ("Unknown method: " ++ method)).

(** The mean of the usable cells of a series, NaN when there is none. *)
Definition mean_valid (c : Series) : value :=
  match dropna c with
  | [] => None
  | (_ :: _) as xs => Some (Qsum xs / inject_Z (Z.of_nat (length xs)))
  end.

(** The three error kinds of the specification, as the exceptions the code
    raises for them. *)
Definition MissingInputError (col method : string) : exn :=
  KeyError ("Missing '" ++ col ++ "' for method=" ++ method).

Definition UnsupportedMethodError (method : string) : exn :=
  ValueError ("Unknown method: " ++ method).

End Momentum.

(** ** The momentum functions in binary64

    [rolling_momentum] and [ewm_momentum] once more, over IEEE 754
    double-precision cells ([PrimFloat.float], NaN included), with the
    loops of pandas' [roll_mean] and [ewm] aggregations written operation
    by operation: every [+], [-], [*] and [/] below is one rounded float64
    operation, in the order in which the loops perform them. *)

Module Float64.
Import PrimFloat FloatClass.
Local Open Scope float_scope.

Definition Series : Type := list float.

(** [val == val]: the cell is not NaN *)
Definition notnan (val : float) : bool := val =? val.

(** [a != b] *)
Definition neqb (a b : float) : bool := negb (a =? b).

(** an integer below 2^63 as a double: [<float64_t>nobs], [float(span - 1)] *)
Definition of_Z (n : Z) : float := of_uint63 (Uint63.of_Z n).

(** C's [signbit] *)
Definition signbit (val : float) : bool :=
  match classify val with
  | NNormal | NSubn | NZero | NInf => true
  | _ => false
  end.

(** *** [s.ewm(span=span, adjust=False).mean()] *)

Record ewm_state : Type := mk_ewm
  { weighted : float; old_wt : float; new_wt : float; nobs : Z }.

(** [get_center_of_mass]: [comass = (span - 1) / 2] *)
Definition ewm_com (span : Z) : float := of_Z (span - 1) / 2.

Definition ewm_alpha (com : float) : float := 1 / (1 + com).

Definition ewm_output (minp : Z) (st : ewm_state) : float :=
  if (minp <=? nobs st)%Z then weighted st else nan.

Definition ewm_step (com old_wt_factor : float) (st : ewm_state) (cur : float)
  : ewm_state :=
  let is_observation := notnan cur in
  let nobs' := (nobs st + (if is_observation then 1 else 0))%Z in
  if notnan (weighted st) then
    let old_wt' := old_wt st * old_wt_factor in
    if is_observation then
      if neqb (weighted st) cur then
        let new_wt' := if com =? 1 then 1 - old_wt' else new_wt st in
        mk_ewm ((old_wt' * weighted st + new_wt' * cur) / (old_wt' + new_wt'))
               1 new_wt' nobs'
      else mk_ewm (weighted st) 1 (new_wt st) nobs'
    else mk_ewm (weighted st) old_wt' (new_wt st) nobs'
  else if is_observation then mk_ewm cur (old_wt st) (new_wt st) nobs'
  else mk_ewm (weighted st) (old_wt st) (new_wt st) nobs'.

Fixpoint ewm_loop (com old_wt_factor : float) (minp : Z) (st : ewm_state)
  (s : Series) : Series :=
  match s with
  | [] => []
  | cur :: s' =>
      let st' := ewm_step com old_wt_factor st cur in
      ewm_output minp st' :: ewm_loop com old_wt_factor minp st' s'
  end.

Definition ewm_mean (s : Series) (span : Z) : result Series :=
  if (span <? 1)%Z then Raise Pandas.ValueError_span
  else
    let com := ewm_com span in
    let alpha := ewm_alpha com in
    let old_wt_factor := 1 - alpha in
    match s with
    | [] => Ok []
    | v :: s' =>
        let st := mk_ewm v 1 alpha (if notnan v then 1 else 0)%Z in
        Ok (ewm_output 1 st :: ewm_loop com old_wt_factor 1 st s')
    end.

(** *** [s.rolling(window=window, min_periods=1).mean()]

    The running sum is Kahan-compensated, separately for additions and
    removals; [neg_ct] counts the cells with the sign bit set, and
    [num_consecutive_same_value] the length of the current stretch of equal
    cells. *)

Record roll_state : Type := mk_roll
  { sum_x : float; roll_nobs : Z; neg_ct : Z;
    compensation_add : float; compensation_remove : float;
    num_consecutive_same_value : Z; prev_value : float }.

Definition add_mean (st : roll_state) (val : float) : roll_state :=
  if notnan val then
    let y := val - compensation_add st in
    let t := sum_x st + y in
    mk_roll t (roll_nobs st + 1)
            (if signbit val then neg_ct st + 1 else neg_ct st)%Z
            (t - sum_x st - y) (compensation_remove st)
            (if val =? prev_value st
             then (num_consecutive_same_value st + 1)%Z else 1%Z)
            val
  else st.

Definition remove_mean (st : roll_state) (val : float) : roll_state :=
  if notnan val then
    let y := - val - compensation_remove st in
    let t := sum_x st + y in
    mk_roll t (roll_nobs st - 1)
            (if signbit val then neg_ct st - 1 else neg_ct st)%Z
            (compensation_add st) (t - sum_x st - y)
            (num_consecutive_same_value st) (prev_value st)
  else st.

Definition calc_mean (minp : Z) (st : roll_state) : float :=
  if ((minp <=? roll_nobs st) && (0 <? roll_nobs st))%Z then
    let result := sum_x st / of_Z (roll_nobs st) in
    if (roll_nobs st <=? num_consecutive_same_value st)%Z then prev_value st
    else if (neg_ct st =? 0)%Z && (result <? 0) then 0
    else if (neg_ct st =? roll_nobs st)%Z && (0 <? result) then 0
    else result
  else nan.

Definition win_start (window i : nat) : nat := (i + 1 - window)%nat.
Definition win_end (i : nat) : nat := (i + 1)%nat.

(** the cells at positions [from .. to - 1] *)
Definition cells (s : Series) (from to : nat) : Series :=
  firstn (to - from) (skipn from s).

Definition roll_init (prev : float) : roll_state := mk_roll 0 0 0 0 0 0 prev.

Definition roll_step (s : Series) (window i : nat) (st : roll_state)
  : roll_state :=
  if ((i =? 0) || (win_end (i - 1) <=? win_start window i))%nat then
    fold_left add_mean (cells s (win_start window i) (win_end i))
              (roll_init (nth (win_start window i) s nan))
  else
    let st1 := fold_left remove_mean
                 (cells s (win_start window (i - 1)) (win_start window i)) st in
    fold_left add_mean (cells s (win_end (i - 1)) (win_end i)) st1.

Fixpoint roll_loop (s : Series) (window : nat) (minp : Z) (n i : nat)
  (st : roll_state) : Series :=
  match n with
  | O => []
  | S n' =>
      let st' := roll_step s window i st in
      calc_mean minp st' :: roll_loop s window minp n' (S i) st'
  end.

Definition rolling_mean (s : Series) (window : Z) (min_periods : Z)
  : result Series :=
  if (window <? min_periods)%Z
  then Raise (Pandas.ValueError_min_periods min_periods window)
  else if (window <? 0)%Z
  then Raise Pandas.ValueError_window
  else Ok (roll_loop s (Z.to_nat window) min_periods (length s) 0
             (roll_init nan)).

(** *** [src/features/momentum.py] *)

Definition rolling_momentum (point_result : Series) (window : Z)
  : result Series :=
  rolling_mean point_result window 1.

Definition ewm_momentum (series : Series) (span : Z) : result Series :=
  ewm_mean series span.

(** *** Vocabulary of the specification *)




(** The mean of a window without missing cells: the sum of its cells over
    their number. *)
Definition mean (c : Series) : float :=
  fold_left add c 0 / of_Z (Z.of_nat (length c)).



End Float64.

(** ** [src/features/swings.py] *)

Module Swings.
Import Pandas.

Record SwingParams : Type := mkSwingParams
  { trend_span : Z;
    amp_q : Q;
    cool : Z;
    fill_zero_trend : bool }.

Definition SwingParams_default : SwingParams :=
  mkSwingParams 5 (85 # 100) 15 true.

(** [sorted(l)] on a list of ints *)
Fixpoint insert_pos (x : Z) (l : list Z) : list Z :=
  match l with
  | [] => [x]
  | y :: l' => if (x <=? y)%Z then x :: l else y :: insert_pos x l'
  end.

Definition sorted (l : list Z) : list Z := fold_right insert_pos [] l.

(** [abs(m.iloc[p])] *)
Definition abs_at (m : Series) (p : Z) : result value :=
  v <- iloc m p ;; Ok (vabs v).

(** [max(group, key=lambda p: abs(m.iloc[p]))]: the key of every element is
    computed, and the running maximum changes only on a strictly greater
    key. *)
Fixpoint max_from (m : Series) (best : Z) (best_key : value)
  (group : list Z) : result Z :=
  match group with
  | [] => Ok best
  | p :: group' =>
      k <- abs_at m p ;;
      if vgt k best_key then max_from m p k group'
      else max_from m best best_key group'
  end.

Definition max_by_abs (m : Series) (group : list Z) : result Z :=
  match group with
  | [] => Raise (ValueError "max() arg is an empty sequence")
  | p :: group' => k <- abs_at m p ;; max_from m p k group'
  end.

(** The inner [while] of the compression: from [pos_idx[j] = last], the
    positions appended to [group] and the positions left after the run. *)
Fixpoint extend_group (last : Z) (rest : list Z) : list Z * list Z :=
  match rest with
  | [] => ([], [])
  | q :: rest' =>
      if (q =? last + 1)%Z
      then let (g, r) := extend_group q rest' in (q :: g, r)
      else ([], rest)
  end.

Definition inspect {A : Type} (x : A) : {y : A | x = y} := exist _ x eq_refl.

(** The outer [while]: one group per iteration, [i = j + 1] afterwards. *)
Equations? compress_loop (m : Series) (pos_idx : list Z)
  : result (list Z) by wf (length pos_idx) lt :=
  compress_loop m [] := Ok [];
  compress_loop m (p :: rest) with inspect (extend_group p rest) := {
    | exist _ (group, rest') Hrun =>
        match max_by_abs m (p :: group) with
        | Ok best =>
            match compress_loop m rest' with
            | Ok keep => Ok (best :: keep)
            | Raise e => Raise e
            end
        | Raise e => Raise e
        end }.
Proof.
  assert (Hlen : forall l last,
             (length (snd (extend_group last l)) <= length l)%nat).
  { induction l as [|q l IH]; intros last; simpl; [lia|].
    destruct (q =? last + 1)%Z; simpl; [|lia].
    specialize (IH q). destruct (extend_group q l). simpl in *. lia. }
  specialize (Hlen rest p). rewrite Hrun in Hlen. simpl in *. lia.
Qed.

Definition _compress_consecutive_by_max_abs (m : Series) (pos_idx : list Z)
  : result (list Z) :=
  match pos_idx with
  | [] => Ok []
  | _ :: _ => compress_loop m (sorted pos_idx)
  end.

(** The [for] loop of the cooldown; [final] is kept reversed, so that its
    head is [final[-1]]. *)
Fixpoint cooldown_loop (m : Series) (cool : Z) (final_rev : list Z)
  (todo : list Z) : result (list Z) :=
  match todo with
  | [] => Ok (rev final_rev)
  | p :: todo' =>
      match final_rev with
      | [] => Raise (IndexError "list index out of range")
      | last :: before =>
          if (cool <=? p - last)%Z
          then cooldown_loop m cool (p :: final_rev) todo'
          else
            kp <- abs_at m p ;;
            kl <- abs_at m last ;;
            if vgt kp kl
            then cooldown_loop m cool (p :: before) todo'
            else cooldown_loop m cool final_rev todo'
      end
  end.

Definition _apply_cooldown_keep_max_abs (m : Series) (keep_pos : list Z)
  (cool : Z) : result (list Z) :=
  match sorted keep_pos with
  | [] => Ok []
  | first :: others => cooldown_loop m cool [first] others
  end.

(** Step 1: the trend signal. *)
Definition trend_signal (m : Series) (params : SwingParams) : result Series :=
  trend <- ewm_mean (diff m) (trend_span params) ;;
  Ok (if fill_zero_trend params then ffill (replace_zero_nan trend)
      else trend).

(** Step 2: the reversal mask. *)
Definition zero : value := Some 0.

Definition reversal (trend : Series) : list bool :=
  zip_with orb
    (zip_with andb (map (fun v => vgt v zero) (shift1 trend))
                   (map (fun v => vle v zero) trend))
    (zip_with andb (map (fun v => vlt v zero) (shift1 trend))
                   (map (fun v => vge v zero) trend)).

(** Step 3: the candidate mask. *)
Definition candidate_mask (m : Series) (rev : list bool) (amp_thr : value)
  : list bool :=
  zip_with andb rev (map (fun v => vgt v amp_thr) (abs m)).

Fixpoint set_flags (swing_flag : list Z) (keep_pos : list Z)
  : result (list Z) :=
  match keep_pos with
  | [] => Ok swing_flag
  | p :: keep_pos' =>
      swing_flag' <- iloc_set swing_flag p 1%Z ;;
      set_flags swing_flag' keep_pos'
  end.

Definition EmptySeriesError : exn := ValueError "Momentum series is all NaN.".

Definition detect_swings (m : Series) (params : SwingParams)
  : result (list Z * list Z * value) :=
  if isna_all m then Raise EmptySeriesError
  else
    trend <- trend_signal m params ;;
    let rev := reversal trend in
    amp_thr <- quantile (abs m) (amp_q params) ;;
    let candidate := candidate_mask m rev amp_thr in
    let idx := true_labels 0 candidate in
    pos_idx <- mapM (get_loc m) idx ;;
    keep_pos <- _compress_consecutive_by_max_abs m pos_idx ;;
    keep_pos <- _apply_cooldown_keep_max_abs m keep_pos (cool params) ;;
    swing_flag <- set_flags (repeat 0%Z (length m)) keep_pos ;;
    Ok (swing_flag, keep_pos, amp_thr).

(** *** Vocabulary of the specification *)

(** [|m[p]|] at a position whose cell is usable *)
Definition magnitude (m : Series) (p : Z) : Q :=
  match nth (Z.to_nat p) m None with
  | Some x => Qabs x
  | None => 0
  end.

Definition usable_at (m : Series) (p : Z) : Prop :=
  (0 <= p < Z.of_nat (length m))%Z /\ nth (Z.to_nat p) m None <> None.

(** A run of consecutive integers, and a list of runs none of which
    continues into the next. *)
Fixpoint run_from (p : Z) (g : list Z) : Prop :=
  match g with
  | [] => True
  | q :: g' => q = (p + 1)%Z /\ run_from q g'
  end.

Definition is_run (g : list Z) : Prop :=
  match g with
  | [] => False
  | p :: g' => run_from p g'
  end.

Fixpoint maximal_runs (gs : list (list Z)) : Prop :=
  match gs with
  | [] => True
  | g1 :: gs' =>
      match gs' with
      | [] => True
      | g2 :: _ => hd 0%Z g2 <> (last g1 0 + 1)%Z
      end /\ maximal_runs gs'
  end.

(** [r] is the earliest position of maximum magnitude in [g]. *)
Definition representative (m : Series) (g : list Z) (r : Z) : Prop :=
  exists pre post : list Z,
    g = pre ++ r :: post
    /\ (forall q, In q pre -> magnitude m q < magnitude m r)
    /\ (forall q, In q post -> magnitude m q <= magnitude m r).

(** Two consecutive kept positions: in order, and at least [cool] apart. *)
Definition apart (cool : Z) (p1 p2 : Z) : Prop :=
  (p1 < p2 /\ cool <= p2 - p1)%Z.

(** The series of the scenario of the specification. *)
Definition zq (z : Z) : value := Some (inject_Z z).

Definition scenario_momentum : Series :=
  map zq [0; 1; 2; 1; 0; -1; -2; -1; 0; 1; 2]%Z.

Definition scenario_params : SwingParams := mkSwingParams 1 (1 # 2) 2 true.

(** A series with two kept swings under a lower threshold. *)
Definition example_momentum : Series :=
  map zq [0; 1; 3; 4; 3; 1; -2; -5; -4; -1; 2; 1; 0]%Z.

Definition example_params : SwingParams := mkSwingParams 1 (1 # 4) 2 true.

End Swings.


(** ** Vocabulary of the proofs *)

Import Pandas Momentum Swings.

Definition in_range (m : Series) (p : Z) : Prop :=
  (0 <= p < Z.of_nat (length m))%Z.

Ltac mem :=
  cbn [app] in *;
  repeat match goal with
         | H : In _ (_ ++ _) |- _ => apply in_app_or in H
         | H : In _ (_ :: _) |- _ => destruct H as [H | H]
         | H : In _ [] |- _ => destruct H
         | H : _ \/ _ |- _ => destruct H as [H | H]
         end;
  subst; repeat (rewrite in_app_iff || cbn [In]); auto 6.

Ltac sub_range Hr :=
  rewrite Forall_forall in *;
  let x := fresh "x" in let Hx := fresh "Hx" in
  intros x Hx; apply Hr; mem.

Definition candidates (m trend : Series) (amp_thr : value) : list Z :=
  true_labels 0 (candidate_mask m (reversal trend) amp_thr).

(** A cell that carries no direction: missing, or exactly zero. *)
Definition is_zero (v : value) : Prop := exists x, v = Some x /\ x == 0.

Definition directionless (v : value) : Prop := v = None \/ is_zero v.

(** ** [src/data/match.py]: the derived columns

    [load_raw_points_csv] reads a file and [get_match] filters and sorts on
    a text column; they are outside this model, whose frames hold numeric
    columns under distinct names (as [read_csv] produces them). *)

Module Match.

(** [repr] of a column name that holds no quote, backslash or control
    character, so that nothing is escaped *)
Definition repr_str (c : string) : string := "'" ++ c ++ "'".

Fixpoint join_comma (l : list string) : string :=
  match l with
  | [] => ""
  | [c] => c
  | c :: l' => c ++ ", " ++ join_comma l'
  end.

(** [repr] of a list of plain names, as an f-string prints it *)
Definition repr_list (l : list string) : string :=
  "[" ++ join_comma (map repr_str l) ++ "]".

Definition _assert_cols (df : DataFrame) (cols : list string) : result unit :=
  let missing := filter (fun c => negb (has_column df c)) cols in
  match missing with
  | [] => Ok tt
  | _ :: _ => Raise (KeyError ("Missing columns: " ++ repr_list missing))
  end.

(** [df[c] = s]: replaces the column named [c], or appends it. *)
Fixpoint setitem (df : DataFrame) (c : string) (s : Series) : DataFrame :=
  match df with
  | [] => [(c, s)]
  | (c', s') :: df' =>
      if String.eqb c c' then (c, s) :: df'
      else (c', s') :: setitem df' c s
  end.

(** [s == x] and [s == t], cell by cell; a missing cell equals nothing. *)
Definition veqb (a b : value) : bool :=
  match a, b with
  | Some x, Some y => Qeq_bool x y
  | _, _ => false
  end.

Definition eq_scalar (s : Series) (x : Q) : list bool :=
  map (fun v => veqb v (Some x)) s.

Definition eq_series (s t : Series) : list bool := zip_with veqb s t.

(** [b.astype(int)] *)
Definition astype_int (b : list bool) : Series :=
  map (fun x : bool => if x then Some 1 else Some 0) b.

Definition vneg (a : value) : value := option_map Qopp a.

(** [np.where(cond, a, b)] with two scalars, and with two arrays *)
Definition where_scalar (cond : list bool) (a b : value) : Series :=
  map (fun c : bool => if c then a else b) cond.

Fixpoint where_series (cond : list bool) (a b : Series) : Series :=
  match cond, a, b with
  | c :: cond', x :: a', y :: b' =>
      (if c then x else y) :: where_series cond' a' b'
  | _, _, _ => []
  end.

(** [s.mean()]: the mean of the usable cells, NaN when there is none *)
Definition mean (s : Series) : value := mean_valid s.

Definition add_point_result (df_match : DataFrame) (winner_col : string)
  : result DataFrame :=
  _ <- _assert_cols df_match [winner_col] ;;
  victor <- getitem df_match winner_col ;;
  Ok (setitem df_match "point_result"
        (where_scalar (eq_scalar victor 1) (Some 1) (Some (-1)))).

(** [p_server_win : Optional[float]]: the outer [None] is Python's [None],
    [Some v] a float [v]. *)
Definition add_serve_adjusted_contrib (df_match : DataFrame)
  (server_col winner_col : string) (p_server_win : option value)
  : result (DataFrame * value) :=
  _ <- _assert_cols df_match [server_col; winner_col] ;;
  let df_out := df_match in
  winner <- getitem df_out winner_col ;;
  server <- getitem df_out server_col ;;
  let df_out := setitem df_out "serve_wins"
                  (astype_int (eq_series winner server)) in
  p <- match p_server_win with
       | None => serve_wins <- getitem df_out "serve_wins" ;;
                 Ok (mean serve_wins)
       | Some p => Ok p
       end ;;
  serve_wins <- getitem df_out "serve_wins" ;;
  let df_out := setitem df_out "serve_adj"
                  (where_scalar (eq_scalar serve_wins 1)
                     (vsub (Some 1) p) (vneg p)) in
  server <- getitem df_out server_col ;;
  serve_adj <- getitem df_out "serve_adj" ;;
  let df_out := setitem df_out "serve_adj_p1"
                  (where_series (eq_scalar server 1)
                     serve_adj (map vneg serve_adj)) in
  Ok (df_out, p).

(** A short match: the server and the winner of four points. *)
Definition example_frame : DataFrame :=
  [("server"%string, [Some 1; Some 1; Some 2; Some 2]);
   ("point_victor"%string, [Some 1; Some 2; Some 2; Some 2])].

End Match.

Import Match.

(** ** Vocabulary of the further properties *)

(** The positions [s.iloc[p]] accepts on a series of [n] cells. *)
Definition in_bounds (n : nat) (p : Z) : Prop :=
  (- Z.of_nat n <= p < Z.of_nat n)%Z.

Definition in_boundsb (n : nat) (p : Z) : bool :=
  ((- Z.of_nat n <=? p) && (p <? Z.of_nat n))%Z.

(** The number of cells of a flag sequence that are set. *)
Definition count_flags (flags : list Z) : nat := count_occ Z.eq_dec flags 1%Z.

(** Two consecutive positions of a cooled list: in order (possibly equal)
    and at least [cool] apart. *)
Definition spaced (cool : Z) (p1 p2 : Z) : Prop :=
  (p1 <= p2 /\ cool <= p2 - p1)%Z.

(** [k] is at least as strong as [p]. *)
Definition dominates (m : Series) (k p : Z) : Prop :=
  magnitude m p <= magnitude m k.

(** Two short series with missing cells. *)
Definition example_points : Series := [Some 1; None; None; Some (-1)].

Definition example_gaps : Series := [None; Some 1; None; Some 3].

(** A point won by the server counts 1, a point lost 0. *)
Definition b2q (b : bool) : Q := if b then 1 else 0.

(** The cell of [serve_adj_p1] for one point, from its winner and server
    cells and the serve win rate [q]. *)
Definition player1_cell (q : Q) (w s : value) : value :=
  let base := if veqb w s then Some (1 - q) else Some (- q) in
  if veqb s (Some 1) then base else vneg base.

(** The momentum seen from the other player: every cell negated. *)
Definition negate (m : Series) : Series := map vneg m.

(** Two cells that are opposite numbers, or both missing. *)
Definition opposite (a b : value) : Prop :=
  match a, b with
  | Some x, Some y => x == - y
  | None, None => True
  | _, _ => False
  end.

Definition opposite_states (s t : ewm_state) : Prop :=
  opposite (weighted s) (weighted t)
  /\ old_wt s == old_wt t
  /\ new_wt s == new_wt t
  /\ ewm_nobs s = ewm_nobs t.

(** * Properties *)

(** ** Cells and series *)

Lemma Qeq_bool_false (x y : Q) : Qeq_bool x y = false -> ~ x == y.
Proof.
  intros H E. apply Qeq_bool_iff in E. congruence.
Qed.

Lemma Qltb_lt (x y : Q) : Qltb x y = true <-> x < y.
Proof.
  unfold Qltb. rewrite negb_true_iff. split; intros H.
  - apply Qnot_le_lt. intros L. apply Qle_bool_iff in L. congruence.
  - destruct (Qle_bool y x) eqn:E; [|reflexivity].
    apply Qle_bool_iff in E. exfalso. apply (Qlt_not_le _ _ H E).
Qed.

(** ** Momentum in binary64 *)

Section Binary64.
Import PrimFloat.
Local Open Scope float_scope.














End Binary64.

(** ** Dispatch *)

(** C6.  [compute_momentum] raises [MissingInputError] when the column of
    the selected method is absent ([point_col] for "rm" and "ewm",
    [serve_adj_col] for "srv_ewm") and [UnsupportedMethodError] for any
    other method name; a raising call produces no series. *)
Theorem compute_momentum_errors (df : DataFrame) (method : string)
  (window span : Z) (point_col serve_adj_col : string) :
  let r := compute_momentum df method window span point_col serve_adj_col in
  ((method = "rm"%string \/ method = "ewm"%string) ->
   ~ In point_col (columns df) ->
   r = Raise (MissingInputError point_col method))
  /\ (method = "srv_ewm"%string ->
      ~ In serve_adj_col (columns df) ->
      r = Raise (MissingInputError serve_adj_col method))
  /\ (method <> "rm"%string -> method <> "ewm"%string ->
      method <> "srv_ewm"%string ->
      r = Raise (UnsupportedMethodError method))
  /\ (forall e, r = Raise e -> forall s, r <> Ok s).
Proof.
  assert (Hcol : forall c, ~ In c (columns df) -> has_column df c = false).
  { intros c Hc. unfold has_column.
    destruct (existsb (String.eqb c) (columns df)) eqn:E; [|reflexivity].
    apply existsb_exists in E. destruct E as [c' [Hin Heq]].
    apply String.eqb_eq in Heq. subst. contradiction. }
  intros r. unfold r, compute_momentum, MissingInputError,
    UnsupportedMethodError.
  split; [|split; [|split]].
  - intros [-> | ->] Hc; simpl; rewrite (Hcol _ Hc); reflexivity.
  - intros -> Hc. simpl. rewrite (Hcol _ Hc). reflexivity.
  - intros H1 H2 H3.
    apply String.eqb_neq in H1, H2, H3. rewrite H1, H2, H3. reflexivity.
  - intros e He s Hs. rewrite He in Hs. discriminate.
Qed.

Lemma compute_momentum_errors_witness :
  compute_momentum [("point_result"%string, [Some 1])] "srv_ewm" 15 25
    "point_result" "serve_adj_p1"
  = Raise (MissingInputError "serve_adj_p1" "srv_ewm")
  /\ compute_momentum [] "rm" 15 25 "point_result" "serve_adj_p1"
     = Raise (MissingInputError "point_result" "rm")
  /\ compute_momentum [("point_result"%string, [Some 1])] "median" 15 25
       "point_result" "serve_adj_p1"
     = Raise (UnsupportedMethodError "median").
Proof.
  split; [|split].
  - apply (proj1 (proj2 (@compute_momentum_errors
             [("point_result"%string, [Some 1])] "srv_ewm" 15 25
             "point_result" "serve_adj_p1"))); [reflexivity|].
    simpl. intros [H|[]]. discriminate.
  - apply (proj1 (@compute_momentum_errors
             [] "rm" 15 25 "point_result" "serve_adj_p1"));
      [left; reflexivity | simpl; tauto].
  - apply (proj1 (proj2 (proj2 (@compute_momentum_errors
             [("point_result"%string, [Some 1])] "median" 15 25
             "point_result" "serve_adj_p1")))); discriminate.
Defined.

(** ** Rolling mean *)

Lemma roll_loop_length (s : Series) (window : nat) (minp : Z) (n : nat) :
  forall i st, length (roll_loop s window minp n i st) = n.
Proof. induction n; intros; simpl; auto. Qed.

(** ** Sorting positions *)

Lemma insert_pos_below (x : Z) (l : list Z) :
  Forall (Z.lt x) l -> insert_pos x l = x :: l.
Proof.
  intros H. destruct l as [|y l]; simpl; [reflexivity|].
  inversion H; subst. destruct (x <=? y)%Z eqn:E; [reflexivity|].
  apply Z.leb_gt in E. lia.
Qed.

Lemma sorted_increasing (l : list Z) :
  StronglySorted Z.lt l -> sorted l = l.
Proof.
  induction 1 as [|a l Hl IH Ha]; [reflexivity|].
  unfold sorted in *. simpl. rewrite IH. apply insert_pos_below. exact Ha.
Qed.

Lemma insert_pos_in (x y : Z) (l : list Z) :
  In y (insert_pos x l) <-> y = x \/ In y l.
Proof.
  induction l as [|a l IH]; simpl; [intuition|].
  destruct (x <=? a)%Z; simpl; [intuition|].
  rewrite IH. intuition.
Qed.

Lemma sorted_in (y : Z) (l : list Z) : In y (sorted l) <-> In y l.
Proof.
  unfold sorted. induction l as [|a l IH]; simpl; [tauto|].
  rewrite insert_pos_in, IH. intuition.
Qed.

Lemma insert_pos_sorted (x : Z) (l : list Z) :
  Sorted Z.le l -> Sorted Z.le (insert_pos x l).
Proof.
  induction 1 as [|a l Hl IH Ha]; simpl; [repeat constructor|].
  destruct (x <=? a)%Z eqn:E.
  - apply Z.leb_le in E. repeat constructor; assumption.
  - apply Z.leb_gt in E. constructor; [exact IH|].
    destruct l as [|b l]; simpl.
    + constructor. lia.
    + inversion Ha; subst. destruct (x <=? b)%Z; constructor; lia.
Qed.

Lemma sorted_is_sorted (l : list Z) : Sorted Z.le (sorted l).
Proof.
  unfold sorted. induction l as [|a l IH]; simpl; [constructor|].
  apply insert_pos_sorted. exact IH.
Qed.

Lemma sorted_length (l : list Z) : length (sorted l) = length l.
Proof.
  assert (H : forall x l', length (insert_pos x l') = S (length l')).
  { intros x l'. induction l' as [|a l' IH]; simpl; [reflexivity|].
    destruct (x <=? a)%Z; simpl; auto. }
  unfold sorted. induction l as [|a l IH]; simpl; [reflexivity|].
  rewrite H. auto.
Qed.

(** ** Positional access *)

Lemma iloc_in_range {A : Type} (s : list A) (p : Z) (d : A) :
  (0 <= p < Z.of_nat (length s))%Z ->
  iloc s p = Ok (nth (Z.to_nat p) s d).
Proof.
  intros H. unfold iloc.
  destruct (p <? 0)%Z eqn:E1; [lia|].
  destruct ((p <? 0)%Z || (Z.of_nat (length s) <=? p)%Z) eqn:E2.
  - apply orb_true_iff in E2. destruct E2 as [E2|E2]; lia.
  - destruct (nth_error s (Z.to_nat p)) eqn:E3.
    + now rewrite (nth_error_nth _ _ d E3).
    + apply nth_error_None in E3. lia.
Qed.

Lemma abs_at_in_range (m : Series) (p : Z) :
  (0 <= p < Z.of_nat (length m))%Z ->
  abs_at m p = Ok (vabs (nth (Z.to_nat p) m None)).
Proof.
  intros H. unfold abs_at. rewrite (iloc_in_range m p None H). reflexivity.
Qed.

Lemma usable_in_range (m : Series) (p : Z) : usable_at m p -> in_range m p.
Proof. intros [H _]. exact H. Qed.

Lemma abs_at_usable (m : Series) (p : Z) :
  usable_at m p -> abs_at m p = Ok (Some (magnitude m p)).
Proof.
  intros [Hr Hv]. rewrite abs_at_in_range by exact Hr. unfold magnitude.
  destruct (nth (Z.to_nat p) m None); [reflexivity | congruence].
Qed.

(** ** The maximum of a group *)

Lemma max_from_in (m : Series) (group : list Z) :
  Forall (in_range m) group ->
  forall b kb, exists best,
    max_from m b kb group = Ok best /\ (best = b \/ In best group).
Proof.
  induction 1 as [|p group Hp Hg IH]; intros b kb; simpl.
  - exists b. auto.
  - rewrite abs_at_in_range by exact Hp. simpl.
    destruct (vgt _ kb).
    + destruct (IH p (vabs (nth (Z.to_nat p) m None))) as [best [E H]].
      exists best. split; [exact E|]. destruct H as [-> | H]; simpl; auto.
    + destruct (IH b kb) as [best [E H]].
      exists best. split; [exact E|]. destruct H as [-> | H]; simpl; auto.
Qed.

Lemma max_by_abs_in (m : Series) (p : Z) (group : list Z) :
  Forall (in_range m) (p :: group) ->
  exists best, max_by_abs m (p :: group) = Ok best /\ In best (p :: group).
Proof.
  intros H. inversion H as [|? ? Hp Hg]; subst. simpl.
  rewrite abs_at_in_range by exact Hp. simpl.
  destruct (max_from_in m group Hg p (vabs (nth (Z.to_nat p) m None)))
    as [best [E Hb]].
  exists best. split; [exact E|]. destruct Hb as [-> | Hb]; simpl; auto.
Qed.

Lemma max_from_representative (m : Series) (group : list Z) :
  Forall (usable_at m) group ->
  forall b best,
    max_from m b (Some (magnitude m b)) group = Ok best ->
    (best = b /\ forall q, In q group -> magnitude m q <= magnitude m b)
    \/ (exists pre post, group = pre ++ best :: post
          /\ magnitude m b < magnitude m best
          /\ (forall q, In q pre -> magnitude m q < magnitude m best)
          /\ (forall q, In q post -> magnitude m q <= magnitude m best)).
Proof.
  induction 1 as [|p group Hp Hg IH]; intros b best; simpl.
  - intros E. injection E as <-. left. split; [reflexivity|]. intros q [].
  - rewrite abs_at_usable by exact Hp. simpl.
    destruct (Qltb (magnitude m b) (magnitude m p)) eqn:E; intros Hmax.
    + apply Qltb_lt in E. right.
      destruct (IH _ _ Hmax) as [[-> Hall] | [pre [post [-> [H1 [H2 H3]]]]]].
      * exists [], group. repeat split; auto. intros q [].
      * exists (p :: pre), post. repeat split; auto.
        -- lra.
        -- intros q [<- | Hq]; auto.
    + assert (Hle : magnitude m p <= magnitude m b).
      { destruct (Qlt_le_dec (magnitude m b) (magnitude m p)) as [L|L];
          [|exact L]. apply Qltb_lt in L. congruence. }
      destruct (IH _ _ Hmax) as [[-> Hall] | [pre [post [-> [H1 [H2 H3]]]]]].
      * left. split; [reflexivity|]. intros q [<- | Hq]; auto.
      * right. exists (p :: pre), post. repeat split; auto.
        intros q [<- | Hq]; auto. lra.
Qed.

Lemma max_by_abs_representative (m : Series) (p : Z) (group : list Z)
  (best : Z) :
  Forall (usable_at m) (p :: group) ->
  max_by_abs m (p :: group) = Ok best ->
  representative m (p :: group) best.
Proof.
  intros H. inversion H as [|? ? Hp Hg]; subst. simpl.
  rewrite abs_at_usable by exact Hp. simpl. intros Hmax.
  destruct (max_from_representative m group Hg _ _ Hmax)
    as [[-> Hall] | [pre [post [-> [H1 [H2 H3]]]]]].
  - exists [], group. repeat split; auto. intros q [].
  - exists (p :: pre), post. repeat split; auto.
    intros q [<- | Hq]; auto.
Qed.

(** ** Run compression *)

Lemma extend_group_spec (rest : list Z) :
  forall p g rest',
    extend_group p rest = (g, rest') ->
    rest = g ++ rest'
    /\ run_from p g
    /\ match rest' with
       | [] => True
       | q :: _ => q <> (last (p :: g) 0 + 1)%Z
       end.
Proof.
  induction rest as [|q rest IH]; intros p g rest' E; simpl in E.
  - injection E as <- <-. simpl. auto.
  - destruct (q =? p + 1)%Z eqn:Eq.
    + destruct (extend_group q rest) as [g1 r1] eqn:E1.
      injection E as <- <-. apply Z.eqb_eq in Eq.
      destruct (IH _ _ _ E1) as [-> [Hrun Hnext]].
      split; [reflexivity|]. split; [simpl; auto|].
      exact Hnext.
    + injection E as <- <-. apply Z.eqb_neq in Eq. simpl. auto.
Qed.

Lemma compress_loop_cons (m : Series) (p : Z) (rest : list Z) :
  compress_loop m (p :: rest)
  = match max_by_abs m (p :: fst (extend_group p rest)) with
    | Ok best =>
        match compress_loop m (snd (extend_group p rest)) with
        | Ok keep => Ok (best :: keep)
        | Raise e => Raise e
        end
    | Raise e => Raise e
    end.
Proof.
  funelim (compress_loop m (p :: rest)).
  rewrite Hrun. reflexivity.
Qed.

Lemma compress_loop_groups (m : Series) (n : nat) :
  forall l, (length l <= n)%nat -> Forall (in_range m) l ->
    exists groups keep,
      compress_loop m l = Ok keep
      /\ concat groups = l
      /\ Forall is_run groups
      /\ maximal_runs groups
      /\ Forall2 (fun g r => max_by_abs m g = Ok r) groups keep.
Proof.
  induction n as [|n IH]; intros l Hlen Hr.
  - destruct l; [|simpl in Hlen; lia].
    exists [], []. rewrite compress_loop_equation_1.
    repeat split; constructor.
  - destruct l as [|p rest].
    + exists [], []. rewrite compress_loop_equation_1.
      repeat split; constructor.
    + rewrite compress_loop_cons.
      destruct (extend_group p rest) as [g rest'] eqn:E. cbn [fst snd].
      destruct (extend_group_spec rest p g rest' E) as [-> [Hrun Hnext]].
      inversion Hr as [|? ? Hp Hrest]; subst.
      apply Forall_app in Hrest. destruct Hrest as [Hg Hrest'].
      destruct (max_by_abs_in m p g) as [best [Hbest _]];
        [constructor; assumption|].
      destruct (IH rest') as [groups [keep [Hk [Hc [Hruns [Hmax Hreps]]]]]];
        [simpl in Hlen; rewrite length_app in Hlen; lia | exact Hrest' |].
      exists ((p :: g) :: groups), (best :: keep).
      rewrite Hbest, Hk. split; [reflexivity|].
      split; [simpl; rewrite Hc; reflexivity|].
      split; [constructor; [exact Hrun | exact Hruns]|].
      split; [|constructor; assumption].
      simpl. split; [|exact Hmax].
      destruct groups as [|g2 groups']; [exact I|].
      inversion Hruns as [|? ? Hg2 _]; subst.
      destruct g2 as [|q g2]; [contradiction|]. exact Hnext.
Qed.

Lemma compress_consecutive_unfold (m : Series) (pos_idx : list Z) :
  _compress_consecutive_by_max_abs m pos_idx
  = compress_loop m (sorted pos_idx).
Proof.
  destruct pos_idx; [|reflexivity].
  simpl. now rewrite compress_loop_equation_1.
Qed.

(** C5.  On candidate positions whose cells are usable, run compression
    returns one position per maximal run of consecutive integers of the
    sorted positions: the position of maximum [|momentum|] in the run, the
    earliest one on a tie. *)
Theorem compress_consecutive_by_max_abs_runs (m : Series)
  (pos_idx : list Z) :
  Forall (usable_at m) pos_idx ->
  exists (groups : list (list Z)) (keep : list Z),
    _compress_consecutive_by_max_abs m pos_idx = Ok keep
    /\ concat groups = sorted pos_idx
    /\ Forall is_run groups
    /\ maximal_runs groups
    /\ Forall2 (representative m) groups keep.
Proof.
  intros Hu. rewrite compress_consecutive_unfold.
  assert (Hs : Forall (usable_at m) (sorted pos_idx)).
  { rewrite Forall_forall in *. intros x Hx. apply Hu.
    apply sorted_in. exact Hx. }
  destruct (compress_loop_groups m (length (sorted pos_idx))
              (sorted pos_idx) (le_n _))
    as [groups [keep [Hk [Hc [Hruns [Hmax Hreps]]]]]].
  { revert Hs. apply Forall_impl. apply usable_in_range. }
  exists groups, keep. repeat split; try assumption.
  rewrite <- Hc in Hs. clear Hk Hc Hmax Hu.
  induction Hreps as [|g r groups keep Hr Hreps IH]; [constructor|].
  simpl in Hs. apply Forall_app in Hs. destruct Hs as [Hg Hs].
  inversion Hruns; subst.
  constructor; [|apply IH; assumption].
  destruct g as [|p g]; [contradiction|].
  apply max_by_abs_representative; assumption.
Qed.

Lemma compress_consecutive_by_max_abs_runs_witness :
  exists (groups : list (list Z)) (keep : list Z),
    _compress_consecutive_by_max_abs (map zq [0; 1; -3; 2; 0; 5; 0]%Z)
      [5; 1; 3; 2]%Z = Ok keep
    /\ concat groups = sorted [5; 1; 3; 2]%Z
    /\ Forall is_run groups
    /\ maximal_runs groups
    /\ Forall2 (representative (map zq [0; 1; -3; 2; 0; 5; 0]%Z)) groups keep.
Proof.
  apply (compress_consecutive_by_max_abs_runs
           (map zq [0; 1; -3; 2; 0; 5; 0]%Z) [5; 1; 3; 2]%Z).
  repeat constructor; simpl; try lia; discriminate.
Defined.

(** Three consecutive candidates of differing magnitude: only the largest
    is kept. *)
Example compress_three_consecutive :
  _compress_consecutive_by_max_abs (map zq [0; 1; -3; 2; 0]%Z) [1; 2; 3]%Z
  = Ok [2%Z].
Proof. reflexivity. Qed.

Lemma groups_representatives_in (m : Series) (groups : list (list Z))
  (keep : list Z) :
  Forall (in_range m) (concat groups) ->
  Forall is_run groups ->
  Forall2 (fun g r => max_by_abs m g = Ok r) groups keep ->
  Forall2 (fun g r => In r g) groups keep.
Proof.
  intros Hr Hruns Hreps. induction Hreps as [|g r groups keep E _ IH];
    [constructor|].
  simpl in Hr. apply Forall_app in Hr. destruct Hr as [Hg Hr].
  inversion Hruns; subst. constructor; [|apply IH; assumption].
  destruct g as [|p g]; [contradiction|].
  destruct (max_by_abs_in m p g Hg) as [best [E' Hin]]. congruence.
Qed.

Lemma representatives_increasing (groups : list (list Z)) (keep : list Z) :
  Forall2 (fun g r => In r g) groups keep ->
  StronglySorted Z.lt (concat groups) ->
  StronglySorted Z.lt keep /\ incl keep (concat groups).
Proof.
  induction 1 as [|g r groups keep Hin _ IH]; intros Hs; simpl.
  - split; [constructor | apply incl_refl].
  - simpl in Hs.
    assert (Hs2 : StronglySorted Z.lt (concat groups)).
    { clear - Hs. induction g as [|a g IHg]; [exact Hs|].
      inversion Hs; auto. }
    destruct (IH Hs2) as [Hk Hincl]. split.
    + constructor; [exact Hk|]. apply Forall_forall. intros x Hx.
      apply Hincl in Hx. clear - Hs Hin Hx.
      induction g as [|a g IHg]; [contradiction|].
      inversion Hs as [|? ? Hs' Ha]; subst. destruct Hin as [<- | Hin].
      * rewrite Forall_forall in Ha. apply Ha. apply in_or_app. auto.
      * apply IHg; assumption.
    + intros x [<- | Hx]; apply in_or_app; [left; exact Hin|].
      right. apply Hincl. exact Hx.
Qed.

Lemma compress_increasing (m : Series) (l : list Z) :
  StronglySorted Z.lt l -> Forall (in_range m) l ->
  exists keep, _compress_consecutive_by_max_abs m l = Ok keep
               /\ StronglySorted Z.lt keep /\ incl keep l.
Proof.
  intros Hs Hr. rewrite compress_consecutive_unfold, sorted_increasing by auto.
  destruct (compress_loop_groups m (length l) l (le_n _) Hr)
    as [groups [keep [Hk [Hc [Hruns [_ Hreps]]]]]].
  exists keep. split; [exact Hk|]. rewrite <- Hc in *.
  apply representatives_increasing; [|exact Hs].
  apply (groups_representatives_in m); assumption.
Qed.

(** ** Cooldown *)

Lemma Sorted_snoc {A : Type} (R : A -> A -> Prop) (l : list A) (a : A) :
  Sorted R l -> (forall b, In b l -> last l a = b -> R b a) ->
  Sorted R (l ++ [a]).
Proof.
  induction 1 as [|x l Hl IH Hx]; intros Hlast; simpl.
  - repeat constructor.
  - constructor.
    + apply IH. intros b Hb Hlb. apply Hlast; [right; exact Hb|].
      destruct l; [contradiction | exact Hlb].
    + destruct l as [|y l]; simpl.
      * constructor. apply Hlast; simpl; auto.
      * inversion Hx; subst. constructor. assumption.
Qed.

Lemma Sorted_rev_flip {A : Type} (R : A -> A -> Prop) (l : list A) :
  Sorted (fun a b => R b a) l -> Sorted R (rev l).
Proof.
  induction 1 as [|x l Hl IH Hx]; simpl; [constructor|].
  apply Sorted_snoc; [exact IH|].
  intros b Hb Hlast. destruct l as [|y l]; [contradiction|].
  simpl in Hlast. rewrite last_last in Hlast. rewrite <- Hlast.
  now inversion Hx.
Qed.

Lemma Sorted_nth {A : Type} (R : A -> A -> Prop) (l : list A) (d : A) :
  Sorted R l ->
  forall i, (S i < length l)%nat -> R (nth i l d) (nth (S i) l d).
Proof.
  induction 1 as [|x l Hl IH Hx]; intros i Hi; simpl in Hi; [lia|].
  destruct i as [|i].
  - destruct l; simpl in *; [lia|]. now inversion Hx.
  - change (R (nth i l d) (nth (S i) l d)). apply IH. lia.
Qed.

Lemma Sorted_apart_lt (cool : Z) (l : list Z) :
  Sorted (apart cool) l -> StronglySorted Z.lt l.
Proof.
  intros H. apply Sorted_StronglySorted; [exact Z.lt_trans|].
  induction H as [|x l Hl IH Hx]; constructor; [exact IH|].
  destruct Hx as [|y l' [Hxy _]]; constructor. exact Hxy.
Qed.

Lemma cooldown_loop_spec (m : Series) (cool : Z) (todo : list Z) :
  forall final_rev,
    final_rev <> [] ->
    Sorted (fun a b => apart cool b a) final_rev ->
    StronglySorted Z.lt todo ->
    Forall (Z.lt (hd 0%Z final_rev)) todo ->
    Forall (in_range m) (final_rev ++ todo) ->
    exists out,
      cooldown_loop m cool final_rev todo = Ok out
      /\ Sorted (apart cool) out
      /\ incl out (final_rev ++ todo).
Proof.
  induction todo as [|p todo IH]; intros final_rev Hne Hf Ht Hlt Hr; simpl.
  - exists (rev final_rev). split; [reflexivity|]. split.
    + apply Sorted_rev_flip. exact Hf.
    + rewrite app_nil_r. intros x Hx. apply in_rev. exact Hx.
  - destruct final_rev as [|last before]; [congruence|]. simpl in Hlt.
    inversion Ht as [|? ? Ht' Hp]; subst.
    inversion Hlt as [|? ? Hlp Hlt']; subst.
    assert (Hrp : in_range m p)
      by (rewrite Forall_forall in Hr; apply Hr; mem).
    assert (Hrl : in_range m last)
      by (rewrite Forall_forall in Hr; apply Hr; mem).
    destruct (cool <=? p - last)%Z eqn:E.
    + apply Z.leb_le in E.
      destruct (IH (p :: last :: before)) as [out [Ho [Hs Hi]]];
        try assumption; [congruence | | |].
      * constructor; [exact Hf|]. constructor. split; assumption.
      * sub_range Hr.
      * exists out. split; [exact Ho|]. split; [exact Hs|].
        intros x Hx. apply Hi in Hx. mem.
    + apply Z.leb_gt in E.
      rewrite (abs_at_in_range m p Hrp), (abs_at_in_range m last Hrl).
      simpl. destruct (vgt _ _).
      * destruct (IH (p :: before)) as [out [Ho [Hs Hi]]];
          try assumption; [congruence | | |].
        -- inversion Hf as [|? ? Hb Hh]; subst. constructor; [exact Hb|].
           destruct Hh as [|b before' [H1 H2]]; constructor.
           unfold apart. lia.
        -- sub_range Hr.
        -- exists out. split; [exact Ho|]. split; [exact Hs|].
           intros x Hx. apply Hi in Hx. mem.
      * destruct (IH (last :: before)) as [out [Ho [Hs Hi]]];
          try assumption.
        -- sub_range Hr.
        -- exists out. split; [exact Ho|]. split; [exact Hs|].
           intros x Hx. apply Hi in Hx. mem.
Qed.

Lemma cooldown_increasing (m : Series) (cool : Z) (l : list Z) :
  StronglySorted Z.lt l -> Forall (in_range m) l ->
  exists keep, _apply_cooldown_keep_max_abs m l cool = Ok keep
               /\ Sorted (apart cool) keep /\ incl keep l.
Proof.
  intros Hs Hr. unfold _apply_cooldown_keep_max_abs.
  rewrite sorted_increasing by exact Hs.
  destruct l as [|first others].
  - exists []. repeat split; [constructor | apply incl_refl].
  - inversion Hs; subst.
    apply (cooldown_loop_spec m cool others [first]); auto.
    congruence.
Qed.

(** ** Masks and labels *)

Lemma zip_with_length {A B C : Type} (f : A -> B -> C) (l : list A)
  (r : list B) :
  length (zip_with f l r) = Nat.min (length l) (length r).
Proof.
  revert r. induction l as [|a l IH]; intros [|b r]; simpl; auto.
Qed.

Lemma zip_with_andb_nth (l r : list bool) (i : nat) :
  nth i (zip_with andb l r) false = nth i l false && nth i r false.
Proof.
  revert r i. induction l as [|a l IH]; intros [|b r] [|i]; simpl;
    try reflexivity; auto using andb_false_r.
Qed.

Lemma zip_with_orb_nth (l r : list bool) (i : nat) :
  nth i (zip_with orb l r) false = true ->
  nth i l false = true \/ nth i r false = true.
Proof.
  revert r i. induction l as [|a l IH]; intros [|b r] [|i]; simpl;
    try discriminate; auto.
  intros H. apply orb_true_iff. exact H.
Qed.

Lemma true_labels_spec (b : list bool) :
  forall i,
    StronglySorted Z.lt (true_labels i b)
    /\ forall p, In p (true_labels i b) ->
         (i <= p < i + Z.of_nat (length b))%Z
         /\ nth (Z.to_nat (p - i)) b false = true.
Proof.
  induction b as [|x b IH]; intros i; simpl.
  - split; [constructor | intros p []].
  - destruct (IH (i + 1)%Z) as [Hs Hp].
    assert (Hshift : forall p, In p (true_labels (i + 1) b) ->
              (i <= p < i + Z.pos (Pos.of_succ_nat (length b)))%Z
              /\ nth (Z.to_nat (p - i)) (x :: b) false = true).
    { intros p Hin. destruct (Hp p Hin) as [Hr Hn]. split; [lia|].
      replace (Z.to_nat (p - i)) with (S (Z.to_nat (p - (i + 1)))) by lia.
      exact Hn. }
    destruct x; [|split; assumption].
    split.
    + constructor; [exact Hs|]. apply Forall_forall. intros p Hin.
      destruct (Hp p Hin). lia.
    + intros p [<- | Hin]; [|auto].
      split; [lia|]. now rewrite Z.sub_diag.
Qed.

Lemma mapM_get_loc (m : Series) (l : list Z) :
  Forall (in_range m) l -> mapM (get_loc m) l = Ok l.
Proof.
  induction 1 as [|p l Hp Hl IH]; simpl; [reflexivity|].
  unfold get_loc at 1. destruct Hp as [H0 H1].
  replace ((0 <=? p)%Z && (p <? Z.of_nat (length m))%Z) with true
    by (symmetry; apply andb_true_iff; split;
        [apply Z.leb_le | apply Z.ltb_lt]; assumption).
  simpl. rewrite IH. reflexivity.
Qed.

Lemma set_nth_length {A : Type} (n : nat) (a : A) (l : list A) :
  length (set_nth n a l) = length l.
Proof.
  revert n. induction l as [|x l IH]; intros [|n]; simpl; auto.
Qed.

Lemma set_flags_in_range (keep : list Z) :
  forall flags : list Z,
    Forall (fun p => 0 <= p < Z.of_nat (length flags))%Z keep ->
    exists flags', set_flags flags keep = Ok flags'
                   /\ length flags' = length flags.
Proof.
  induction keep as [|p keep IH]; intros flags H; simpl.
  - exists flags. auto.
  - inversion H as [|? ? Hp Hk]; subst. unfold iloc_set.
    destruct (p <? 0)%Z eqn:E1; [lia|].
    destruct ((p <? 0)%Z || (Z.of_nat (length flags) <=? p)%Z) eqn:E2.
    { apply orb_true_iff in E2. destruct E2; lia. }
    simpl.
    destruct (IH (set_nth (Z.to_nat p) 1%Z flags)) as [flags' [E L]].
    { rewrite set_nth_length. exact Hk. }
    exists flags'. split; [exact E|]. now rewrite L, set_nth_length.
Qed.

(** ** The detector, step by step *)

Lemma candidate_mask_length (m : Series) (rev : list bool) (thr : value) :
  (length (candidate_mask m rev thr) <= length m)%nat.
Proof.
  unfold candidate_mask, abs. rewrite zip_with_length, !length_map. lia.
Qed.

Lemma candidates_spec (m trend : Series) (thr : value) :
  StronglySorted Z.lt (candidates m trend thr)
  /\ forall p, In p (candidates m trend thr) ->
       in_range m p
       /\ nth (Z.to_nat p) (reversal trend) false = true
       /\ vgt (vabs (nth (Z.to_nat p) m None)) thr = true.
Proof.
  unfold candidates.
  destruct (true_labels_spec (candidate_mask m (reversal trend) thr) 0)
    as [Hs Hp].
  split; [exact Hs|]. intros p Hin. destruct (Hp p Hin) as [Hr Hn].
  pose proof (candidate_mask_length m (reversal trend) thr) as Hl.
  split; [unfold in_range; lia|].
  rewrite Z.sub_0_r in Hn. unfold candidate_mask in Hn.
  rewrite zip_with_andb_nth in Hn. apply andb_true_iff in Hn.
  destruct Hn as [H1 H2]. split; [exact H1|].
  unfold abs in H2.
  change false with ((fun v => vgt v thr) None) in H2.
  rewrite map_nth in H2. change None with (vabs None) in H2 at 1.
  rewrite map_nth in H2. exact H2.
Qed.

Lemma detect_swings_steps (m : Series) (params : SwingParams)
  (trend : Series) (thr : value) :
  isna_all m = false ->
  trend_signal m params = Ok trend ->
  quantile (abs m) (amp_q params) = Ok thr ->
  exists reps keep flags,
    _compress_consecutive_by_max_abs m (candidates m trend thr) = Ok reps
    /\ _apply_cooldown_keep_max_abs m reps (cool params) = Ok keep
    /\ detect_swings m params = Ok (flags, keep, thr)
    /\ length flags = length m
    /\ incl keep (candidates m trend thr)
    /\ Sorted (apart (cool params)) keep.
Proof.
  intros Hna Ht Hq.
  destruct (candidates_spec m trend thr) as [Hs Hc].
  assert (Hr : Forall (in_range m) (candidates m trend thr)).
  { apply Forall_forall. intros p Hp. apply Hc. exact Hp. }
  destruct (compress_increasing m _ Hs Hr) as [reps [Hreps [Hrs Hri]]].
  assert (Hrr : Forall (in_range m) reps).
  { rewrite Forall_forall in *. auto. }
  destruct (cooldown_increasing m (cool params) reps Hrs Hrr)
    as [keep [Hkeep [Hks Hki]]].
  destruct (set_flags_in_range keep (repeat 0%Z (length m)))
    as [flags [Hflags Hlen]].
  { rewrite repeat_length. rewrite Forall_forall in *. intros p Hp.
    apply Hrr, Hki, Hp. }
  exists reps, keep, flags.
  split; [exact Hreps|]. split; [exact Hkeep|].
  split; [|split; [|split]].
  - unfold detect_swings. rewrite Hna, Ht. simpl. rewrite Hq. simpl.
    fold (candidates m trend thr). rewrite (mapM_get_loc m _ Hr). simpl.
    rewrite Hreps. simpl. rewrite Hkeep. simpl. rewrite Hflags. reflexivity.
  - now rewrite Hlen, repeat_length.
  - intros p Hp. apply Hri, Hki, Hp.
  - exact Hks.
Qed.

Lemma detect_swings_inv (m : Series) (params : SwingParams)
  (flags keep : list Z) (thr : value) :
  detect_swings m params = Ok (flags, keep, thr) ->
  exists trend,
    isna_all m = false
    /\ trend_signal m params = Ok trend
    /\ quantile (abs m) (amp_q params) = Ok thr
    /\ length flags = length m
    /\ incl keep (candidates m trend thr)
    /\ Sorted (apart (cool params)) keep.
Proof.
  intros H.
  destruct (isna_all m) eqn:Hna;
    [unfold detect_swings in H; rewrite Hna in H; discriminate|].
  destruct (trend_signal m params) as [trend|e] eqn:Ht;
    [|unfold detect_swings in H; rewrite Hna, Ht in H; discriminate].
  destruct (quantile (abs m) (amp_q params)) as [thr'|e] eqn:Hq;
    [|unfold detect_swings in H; rewrite Hna, Ht in H; simpl in H;
      rewrite Hq in H; discriminate].
  destruct (detect_swings_steps m params trend thr' Hna Ht Hq)
    as [reps [keep' [flags' [_ [_ [Hd [Hl [Hi Hs]]]]]]]].
  rewrite Hd in H. injection H as -> -> ->.
  exists trend. repeat split; assumption.
Qed.

(** ** When the detector returns *)

Lemma insert_sorted_length (x : Q) (l : list Q) :
  length (insert_sorted x l) = S (length l).
Proof.
  induction l as [|a l IH]; simpl; [reflexivity|].
  destruct (Qle_bool x a); simpl; auto.
Qed.

Lemma sort_values_length (l : list Q) : length (sort_values l) = length l.
Proof.
  unfold sort_values. induction l as [|a l IH]; simpl; [reflexivity|].
  rewrite insert_sorted_length. auto.
Qed.

Lemma isna_all_false (s : Series) :
  isna_all s = false -> dropna (abs s) <> [].
Proof.
  induction s as [|[x|] s IH]; simpl; try discriminate. auto.
Qed.

Lemma isna_all_true (s : Series) :
  isna_all s = true <-> forall v, In v s -> v = None.
Proof.
  unfold isna_all. rewrite forallb_forall. split; intros H v Hv.
  - specialize (H v Hv). destruct v; [discriminate | reflexivity].
  - rewrite (H v Hv). reflexivity.
Qed.

Lemma trend_signal_outcome (m : Series) (params : SwingParams) :
  if (trend_span params <? 1)%Z
  then trend_signal m params = Raise ValueError_span
  else exists trend, trend_signal m params = Ok trend.
Proof.
  unfold trend_signal, ewm_mean.
  destruct (trend_span params <? 1)%Z; [reflexivity|].
  destruct (diff m); simpl; eexists; reflexivity.
Qed.

Lemma quantile_outcome (s : Series) (q : Q) :
  dropna s <> [] ->
  if Qle_bool 0 q && Qle_bool q 1
  then exists t, quantile s q = Ok (Some t)
  else quantile s q = Raise ValueError_percentile.
Proof.
  intros Hne. unfold quantile.
  destruct (Qle_bool 0 q && Qle_bool q 1); simpl; [|reflexivity].
  destruct (sort_values (dropna s)) as [|x0 vs] eqn:E.
  - apply (f_equal (@length Q)) in E. rewrite sort_values_length in E.
    destruct (dropna s); [congruence | discriminate].
  - eexists. reflexivity.
Qed.

(** The detector returns a result exactly on a series with a usable cell, a
    span of at least 1 and a quantile in [0, 1]; each other input raises
    the error of the first check it fails. *)
Lemma detect_swings_outcome (m : Series) (params : SwingParams) :
  if isna_all m then detect_swings m params = Raise EmptySeriesError
  else if (trend_span params <? 1)%Z
  then detect_swings m params = Raise ValueError_span
  else if Qle_bool 0 (amp_q params) && Qle_bool (amp_q params) 1
  then exists flags keep t, detect_swings m params = Ok (flags, keep, Some t)
  else detect_swings m params = Raise ValueError_percentile.
Proof.
  destruct (isna_all m) eqn:Hna.
  { unfold detect_swings. rewrite Hna. reflexivity. }
  pose proof (trend_signal_outcome m params) as Ht.
  destruct (trend_span params <? 1)%Z.
  { unfold detect_swings. rewrite Hna, Ht. reflexivity. }
  destruct Ht as [trend Ht].
  pose proof (quantile_outcome (abs m) (amp_q params) (isna_all_false m Hna))
    as Hq.
  destruct (Qle_bool 0 (amp_q params) && Qle_bool (amp_q params) 1).
  - destruct Hq as [t Hq].
    destruct (detect_swings_steps m params trend (Some t) Hna Ht Hq)
      as [reps [keep [flags [_ [_ [Hd _]]]]]].
    exists flags, keep, t. exact Hd.
  - unfold detect_swings. rewrite Hna, Ht. simpl. rewrite Hq. reflexivity.
Qed.

(** C7.  [detect_swings] raises [EmptySeriesError] exactly when its input
    has no usable value: it is empty, or every cell is missing. *)
Theorem detect_swings_empty_series (m : Series) (params : SwingParams) :
  detect_swings m params = Raise EmptySeriesError
  <-> (forall v, In v m -> v = None).
Proof.
  rewrite <- isna_all_true.
  pose proof (detect_swings_outcome m params) as H.
  destruct (isna_all m); [tauto|].
  split; [|discriminate]. intros E. exfalso.
  destruct (trend_span params <? 1)%Z; [rewrite H in E; discriminate|].
  destruct (Qle_bool 0 (amp_q params) && Qle_bool (amp_q params) 1).
  - destruct H as [flags [keep [t H]]]. rewrite H in E. discriminate.
  - rewrite H in E. discriminate.
Qed.

Example detect_swings_empty_input :
  detect_swings [] SwingParams_default = Raise EmptySeriesError.
Proof. reflexivity. Qed.

Example detect_swings_all_missing :
  detect_swings [None; None; None] SwingParams_default
  = Raise EmptySeriesError.
Proof. reflexivity. Qed.

(** ** The kept positions *)

Lemma StronglySorted_lt_NoDup (l : list Z) :
  StronglySorted Z.lt l -> NoDup l.
Proof.
  induction 1 as [|a l Hl IH Ha]; constructor; [|exact IH].
  intros Hin. rewrite Forall_forall in Ha. specialize (Ha a Hin). lia.
Qed.

(** C3.  The kept positions returned by [detect_swings] are strictly
    increasing, without duplicates, and two consecutive ones are at least
    [cool] apart. *)
Theorem detect_swings_keep_spaced (m : Series) (params : SwingParams)
  (flags keep : list Z) (thr : value) :
  detect_swings m params = Ok (flags, keep, thr) ->
  StronglySorted Z.lt keep
  /\ NoDup keep
  /\ forall i : nat, (S i < length keep)%nat ->
       (nth i keep 0 < nth (S i) keep 0
        /\ cool params <= nth (S i) keep 0 - nth i keep 0)%Z.
Proof.
  intros H.
  destruct (detect_swings_inv m params flags keep thr H)
    as [trend [_ [_ [_ [_ [_ Hs]]]]]].
  pose proof (Sorted_apart_lt _ _ Hs) as Hlt.
  split; [exact Hlt|]. split; [apply StronglySorted_lt_NoDup; exact Hlt|].
  intros i Hi. exact (Sorted_nth _ keep 0%Z Hs i Hi).
Qed.

Example detect_swings_example :
  detect_swings example_momentum example_params
  = Ok ([0; 0; 0; 0; 1; 0; 0; 0; 1; 0; 0; 0; 0]%Z, [4; 8]%Z, Some (4 # 4)).
Proof. vm_compute. reflexivity. Qed.

Lemma detect_swings_keep_spaced_witness :
  StronglySorted Z.lt [4; 8]%Z
  /\ NoDup [4; 8]%Z
  /\ forall i : nat, (S i < length [4; 8]%Z)%nat ->
       (nth i [4; 8] 0 < nth (S i) [4; 8] 0
        /\ cool example_params <= nth (S i) [4; 8] 0 - nth i [4; 8] 0)%Z.
Proof.
  apply (detect_swings_keep_spaced example_momentum example_params
           [0; 0; 0; 0; 1; 0; 0; 0; 1; 0; 0; 0; 0]%Z [4; 8]%Z
           (Some (4 # 4))).
  vm_compute. reflexivity.
Defined.

(** The candidates handed to the run compression hold usable cells. *)
Lemma candidates_usable (m trend : Series) (thr : value) :
  Forall (usable_at m) (candidates m trend thr).
Proof.
  apply Forall_forall. intros p Hp.
  destruct (candidates_spec m trend thr) as [_ Hc].
  destruct (Hc p Hp) as [Hr [_ Hgt]]. split; [exact Hr|].
  destruct (nth (Z.to_nat p) m None); [discriminate|].
  simpl in Hgt. discriminate.
Qed.

(** C9.  Every kept position of [detect_swings] holds a usable cell whose
    magnitude exceeds the threshold returned by the same call. *)
Theorem detect_swings_keep_above_threshold (m : Series)
  (params : SwingParams) (flags keep : list Z) (thr : value) :
  detect_swings m params = Ok (flags, keep, thr) ->
  forall p : Z, In p keep ->
    exists v t : Q,
      (0 <= p < Z.of_nat (length m))%Z
      /\ nth (Z.to_nat p) m None = Some v
      /\ thr = Some t
      /\ t < Qabs v.
Proof.
  intros H p Hp.
  destruct (detect_swings_inv m params flags keep thr H)
    as [trend [_ [_ [_ [_ [Hi _]]]]]].
  destruct (candidates_spec m trend thr) as [_ Hc].
  destruct (Hc p (Hi p Hp)) as [Hr [_ Hgt]].
  destruct (nth (Z.to_nat p) m None) as [v|]; [|discriminate].
  destruct thr as [t|]; [|discriminate].
  exists v, t. repeat split; try apply Hr. simpl in Hgt.
  apply Qltb_lt. exact Hgt.
Qed.

Lemma detect_swings_keep_above_threshold_witness :
  exists v t : Q,
    (0 <= 8 < Z.of_nat (length example_momentum))%Z
    /\ nth (Z.to_nat 8) example_momentum None = Some v
    /\ Some (4 # 4) = Some t
    /\ t < Qabs v.
Proof.
  apply (detect_swings_keep_above_threshold example_momentum example_params
           [0; 0; 0; 0; 1; 0; 0; 0; 1; 0; 0; 0; 0]%Z [4; 8]%Z
           (Some (4 # 4))).
  - vm_compute. reflexivity.
  - simpl. auto.
Defined.

(** ** The first two positions *)

Lemma shift1_nth_0 (t : Series) : nth 0 (shift1 t) None = None.
Proof. destruct t; reflexivity. Qed.

Lemma shift1_nth_1 (t : Series) :
  nth 1 (shift1 t) None = None \/ nth 1 (shift1 t) None = nth 0 t None.
Proof.
  destruct t as [|a [|b t]]; simpl; auto.
Qed.

Lemma reversal_needs_previous (t : Series) (i : nat) :
  nth i (reversal t) false = true -> nth i (shift1 t) None <> None.
Proof.
  unfold reversal. intros H. apply zip_with_orb_nth in H.
  destruct H as [H | H]; rewrite zip_with_andb_nth in H;
    apply andb_true_iff in H; destruct H as [H _].
  - change false with ((fun v => vgt v zero) None) in H.
    rewrite map_nth in H. destruct (nth i (shift1 t) None); discriminate.
  - change false with ((fun v => vlt v zero) None) in H.
    rewrite map_nth in H. destruct (nth i (shift1 t) None); discriminate.
Qed.

Lemma diff_nth_0 (m : Series) : nth 0 (diff m) None = None.
Proof.
  destruct m as [|a m]; [reflexivity|].
  unfold diff. simpl. destruct a; reflexivity.
Qed.

Lemma trend_signal_nth_0 (m : Series) (params : SwingParams)
  (trend : Series) :
  trend_signal m params = Ok trend -> nth 0 trend None = None.
Proof.
  unfold trend_signal, ewm_mean.
  destruct (trend_span params <? 1)%Z; [discriminate|].
  pose proof (diff_nth_0 m) as Hd.
  destruct (diff m) as [|d ds]; simpl in *.
  - intros E. injection E as <-. destruct (fill_zero_trend params); reflexivity.
  - subst d. intros E. injection E as <-.
    destruct (fill_zero_trend params); reflexivity.
Qed.

(** C10.  Positions 0 and 1 are never kept by [detect_swings]: every kept
    position is at least 2. *)
Theorem detect_swings_keep_from_2 (m : Series) (params : SwingParams)
  (flags keep : list Z) (thr : value) :
  detect_swings m params = Ok (flags, keep, thr) ->
  ~ In 0%Z keep /\ ~ In 1%Z keep /\ forall p, In p keep -> (2 <= p)%Z.
Proof.
  intros H.
  destruct (detect_swings_inv m params flags keep thr H)
    as [trend [_ [Ht [_ [_ [Hi _]]]]]].
  destruct (candidates_spec m trend thr) as [_ Hc].
  assert (Hge : forall p, In p keep -> (2 <= p)%Z).
  { intros p Hp. destruct (Hc p (Hi p Hp)) as [[H0 _] [Hrev _]].
    apply reversal_needs_previous in Hrev.
    destruct (Z.to_nat p) as [|[|n]] eqn:E; [| |lia].
    - rewrite shift1_nth_0 in Hrev. congruence.
    - destruct (shift1_nth_1 trend) as [E1 | E1]; rewrite E1 in Hrev;
        [congruence|].
      rewrite (trend_signal_nth_0 m params trend Ht) in Hrev. congruence. }
  split; [|split; [|exact Hge]]; intros Hin; apply Hge in Hin; lia.
Qed.

Lemma detect_swings_keep_from_2_witness :
  ~ In 0%Z [4; 8]%Z /\ ~ In 1%Z [4; 8]%Z
  /\ forall p, In p [4; 8]%Z -> (2 <= p)%Z.
Proof.
  apply (detect_swings_keep_from_2 example_momentum example_params
           [0; 0; 0; 0; 1; 0; 0; 0; 1; 0; 0; 0; 0]%Z [4; 8]%Z
           (Some (4 # 4))).
  vm_compute. reflexivity.
Defined.

(** ** Forward fill of a zero trend *)

Lemma replace_zero_nan_cons (v : value) (s : Series) :
  replace_zero_nan (v :: s)
  = match v with
    | Some x => if Qeq_bool x 0 then None else Some x
    | None => None
    end :: replace_zero_nan s.
Proof. reflexivity. Qed.

Lemma replace_directionless (v : value) :
  directionless v ->
  match v with
  | Some x => if Qeq_bool x 0 then None else Some x
  | None => None
  end = None.
Proof.
  intros [-> | [x [-> Hx]]]; [reflexivity|].
  apply Qeq_bool_iff in Hx. now rewrite Hx.
Qed.

Lemma replace_nonzero (x : Q) :
  ~ x == 0 -> (if Qeq_bool x 0 then None else Some x) = Some x.
Proof.
  intros H. destruct (Qeq_bool x 0) eqn:E; [|reflexivity].
  apply Qeq_bool_iff in E. contradiction.
Qed.

Lemma fill_length (raw : Series) (last : value) :
  length (ffill_from last (replace_zero_nan raw)) = length raw.
Proof.
  revert last. induction raw as [|v raw IH]; intros last; [reflexivity|].
  rewrite replace_zero_nan_cons.
  destruct (match v with Some x => _ | None => None end); simpl; auto.
Qed.

Lemma fill_keeps_nonzero (raw : Series) :
  forall (last : value) (i : nat) (x : Q),
    nth i raw None = Some x -> ~ x == 0 ->
    nth i (ffill_from last (replace_zero_nan raw)) None = Some x.
Proof.
  induction raw as [|v raw IH]; intros last i x Hx Hnz.
  - destruct i; discriminate.
  - rewrite replace_zero_nan_cons. destruct i as [|i]; simpl in Hx.
    + subst v. rewrite replace_nonzero by exact Hnz. reflexivity.
    + destruct (match v with Some y => _ | None => None end); simpl; auto.
Qed.

Lemma fill_carries_last (raw : Series) :
  forall (last : value) (i : nat),
    (i < length raw)%nat ->
    (forall k, (k <= i)%nat -> directionless (nth k raw None)) ->
    nth i (ffill_from last (replace_zero_nan raw)) None = last.
Proof.
  induction raw as [|v raw IH]; intros last i Hi Hd; simpl in Hi; [lia|].
  rewrite replace_zero_nan_cons.
  rewrite (replace_directionless v (Hd 0%nat (Nat.le_0_l i))).
  destruct i as [|i]; simpl; [reflexivity|].
  apply IH; [lia|]. intros k Hk. apply (Hd (S k)). lia.
Qed.

Lemma fill_takes_nearest (raw : Series) :
  forall (last : value) (i j : nat) (x : Q),
    (j < i < length raw)%nat ->
    nth j raw None = Some x -> ~ x == 0 ->
    (forall k, (j < k <= i)%nat -> directionless (nth k raw None)) ->
    nth i (ffill_from last (replace_zero_nan raw)) None = Some x.
Proof.
  induction raw as [|v raw IH]; intros last i j x Hji Hx Hnz Hd;
    simpl in Hji; [lia|].
  rewrite replace_zero_nan_cons.
  destruct i as [|i]; [lia|]. destruct j as [|j]; simpl in Hx.
  - subst v. rewrite replace_nonzero by exact Hnz. simpl.
    apply fill_carries_last; [lia|].
    intros k Hk. apply (Hd (S k)). lia.
  - assert (Hrec : forall last',
              nth i (ffill_from last' (replace_zero_nan raw)) None = Some x).
    { intros last'. apply (IH last' i j x); auto; [lia|].
      intros k Hk. apply (Hd (S k)). lia. }
    destruct (match v with Some y => _ | None => None end); simpl; auto.
Qed.

(** C2 (amended).  With [fill_zero_trend] set, a smoothed-trend cell that
    is exactly 0 is replaced by the nearest preceding non-zero trend value;
    a zero cell with no non-zero value before it becomes missing (NaN), so
    that every comparison at that position is false.  Non-zero cells are
    kept. *)
Theorem trend_signal_fill_zero (m : Series) (params : SwingParams)
  (raw : Series) :
  fill_zero_trend params = true ->
  ewm_mean (diff m) (trend_span params) = Ok raw ->
  exists trend : Series,
    trend_signal m params = Ok trend
    /\ length trend = length raw
    /\ (forall (i : nat) (x : Q),
          nth i raw None = Some x -> ~ x == 0 ->
          nth i trend None = Some x)
    /\ (forall (i j : nat) (x : Q),
          (j < i < length raw)%nat ->
          is_zero (nth i raw None) ->
          nth j raw None = Some x -> ~ x == 0 ->
          (forall k, (j < k < i)%nat -> directionless (nth k raw None)) ->
          nth i trend None = Some x)
    /\ (forall i : nat,
          (i < length raw)%nat ->
          is_zero (nth i raw None) ->
          (forall k, (k < i)%nat -> directionless (nth k raw None)) ->
          nth i trend None = None
          /\ vgt (nth i trend None) zero = false
          /\ vlt (nth i trend None) zero = false
          /\ vge (nth i trend None) zero = false
          /\ vle (nth i trend None) zero = false).
Proof.
  intros Hfill Hraw. unfold trend_signal. rewrite Hraw, Hfill. simpl.
  eexists. split; [reflexivity|]. unfold ffill.
  split; [apply fill_length|]. split; [|split].
  - intros i x. apply fill_keeps_nonzero.
  - intros i j x Hji Hz Hx Hnz Hd.
    apply (fill_takes_nearest raw None i j x); auto.
    intros k Hk. destruct (Nat.eq_dec k i) as [-> | Hne].
    + right. exact Hz.
    + apply Hd. lia.
  - intros i Hi Hz Hd.
    assert (E : nth i (ffill_from None (replace_zero_nan raw)) None = None).
    { apply fill_carries_last; [exact Hi|].
      intros k Hk. destruct (Nat.eq_dec k i) as [-> | Hne].
      - right. exact Hz.
      - apply Hd. lia. }
    rewrite E. repeat split; reflexivity.
Qed.

Lemma trend_signal_fill_zero_witness :
  exists trend : Series,
    trend_signal (map zq [2; 2; 3; 3; 1]%Z) (mkSwingParams 1 (85 # 100) 15 true)
    = Ok trend
    /\ nth 1 trend None = None
    /\ nth 3 trend None = Some (16 # 16).
Proof.
  destruct (trend_signal_fill_zero (map zq [2; 2; 3; 3; 1]%Z)
              (mkSwingParams 1 (85 # 100) 15 true)
              [None; Some 0; Some (16 # 16); Some (0 # 256);
               Some (-8192 # 4096)])
    as [trend [Ht [_ [_ [Hnear Hnan]]]]];
    [reflexivity | vm_compute; reflexivity |].
  exists trend. split; [exact Ht|]. split.
  - apply (Hnan 1%nat); [simpl; lia | exists 0; split; reflexivity |].
    intros [|k] Hk; [left; reflexivity | lia].
  - apply (Hnear 3%nat 2%nat (16 # 16)); try reflexivity;
      [simpl; lia | exists (0 # 256); split; reflexivity | discriminate | lia].
Defined.

(** C2, as stated, fails on a series that starts flat.  For the momentum
    [1, 1] the smoothed trend is [NaN, 0]; the zero at position 1 has no
    non-zero value before it, and the filled trend holds NaN there, not 0:
    [trend <= 0] and [trend >= 0] are false at that position. *)
Lemma trend_signal_leading_zero_becomes_nan :
  ewm_mean (diff (map zq [1; 1]%Z)) (trend_span SwingParams_default)
  = Ok [None; Some 0]
  /\ trend_signal (map zq [1; 1]%Z) SwingParams_default = Ok [None; None]
  /\ nth 1 [None; None] None <> Some 0
  /\ vle (nth 1 [None; None] None) zero = false
  /\ vle (Some 0) zero = true.
Proof.
  split; [reflexivity|]. split; [reflexivity|].
  split; [discriminate|]. split; reflexivity.
Qed.

(** ** The scenario of the specification *)

(** C1, as stated, fails: on the scenario series with [trend_span = 1],
    [amp_q = 0.5], [cool = 2], the detector returns an empty list of kept
    positions. *)
Lemma scenario_has_no_event :
  exists (flags : list Z) (thr : value),
    detect_swings scenario_momentum scenario_params = Ok (flags, [], thr).
Proof.
  eexists. eexists. vm_compute. reflexivity.
Qed.

(** C1 (amended).  On the scenario series with [trend_span = 1],
    [amp_q = 0.5], [cool = 2] and the default [fill_zero_trend], the
    detector returns the threshold 1, an all-zero flag sequence and no kept
    position: the trend reverses at positions 3 and 7, one past the local
    maximum (position 2) and the local minimum (position 6), and at both
    [|momentum|] is 1, which does not exceed the threshold. *)
Theorem detect_swings_scenario :
  exists (trend : Series) (thr : Q),
    trend_signal scenario_momentum scenario_params = Ok trend
    /\ true_labels 0 (reversal trend) = [3; 7]%Z
    /\ quantile (abs scenario_momentum) (amp_q scenario_params)
       = Ok (Some thr)
    /\ thr == 1
    /\ magnitude scenario_momentum 3 == 1
    /\ magnitude scenario_momentum 7 == 1
    /\ candidates scenario_momentum trend (Some thr) = []
    /\ detect_swings scenario_momentum scenario_params
       = Ok (repeat 0%Z (length scenario_momentum), [], Some thr).
Proof.
  eexists. eexists.
  split; [vm_compute; reflexivity|].
  split; [vm_compute; reflexivity|].
  split; [vm_compute; reflexivity|].
  repeat split; vm_compute; reflexivity.
Qed.

(** * Further properties *)

(** ** The flag sequence *)

Lemma bind_Ok {A B : Type} (r : result A) (k : A -> result B) (b : B) :
  bind r k = Ok b -> exists a, r = Ok a /\ k a = Ok b.
Proof.
  destruct r as [a|e]; simpl; [|discriminate]. intros H. exists a. auto.
Qed.

Lemma detect_swings_flags (m : Series) (params : SwingParams)
  (flags keep : list Z) (thr : value) :
  detect_swings m params = Ok (flags, keep, thr) ->
  set_flags (repeat 0%Z (length m)) keep = Ok flags.
Proof.
  unfold detect_swings. destruct (isna_all m); [discriminate|]. intros H.
  apply bind_Ok in H. destruct H as [trend [_ H]].
  apply bind_Ok in H. destruct H as [thr' [_ H]].
  apply bind_Ok in H. destruct H as [pos_idx [_ H]].
  apply bind_Ok in H. destruct H as [reps [_ H]].
  apply bind_Ok in H. destruct H as [keep' [_ H]].
  apply bind_Ok in H. destruct H as [flags' [Hf H]].
  injection H as <- <- <-. exact Hf.
Qed.

Lemma set_nth_nth {A : Type} (l : list A) :
  forall (n i : nat) (a d : A),
    nth i (set_nth n a l) d
    = if ((i =? n) && (n <? length l))%nat then a else nth i l d.
Proof.
  induction l as [|x l IH]; intros n i a d.
  - simpl. rewrite andb_false_r. destruct n; reflexivity.
  - destruct n as [|n], i as [|i]; simpl; try reflexivity.
    rewrite IH. reflexivity.
Qed.

Lemma count_set_nth (l : list Z) :
  forall n : nat, (n < length l)%nat -> nth n l 0%Z <> 1%Z ->
    count_flags (set_nth n 1%Z l) = S (count_flags l).
Proof.
  unfold count_flags.
  induction l as [|x l IH]; intros n Hn Hx; simpl in Hn; [lia|].
  destruct n as [|n]; simpl in *.
  - destruct (Z.eq_dec x 1); [contradiction|]. reflexivity.
  - rewrite IH by (auto; lia). destruct (Z.eq_dec x 1); reflexivity.
Qed.

Lemma set_flags_spec (keep : list Z) :
  forall flags flags' : list Z,
    Forall (fun p => 0 <= p < Z.of_nat (length flags))%Z keep ->
    set_flags flags keep = Ok flags' ->
    length flags' = length flags
    /\ (forall i : nat, In (Z.of_nat i) keep -> nth i flags' 0%Z = 1%Z)
    /\ (forall i : nat, ~ In (Z.of_nat i) keep ->
          nth i flags' 0%Z = nth i flags 0%Z)
    /\ (NoDup keep ->
        (forall p, In p keep -> nth (Z.to_nat p) flags 0%Z <> 1%Z) ->
        count_flags flags' = (count_flags flags + length keep)%nat).
Proof.
  induction keep as [|p keep IH]; intros flags flags' Hr H; simpl in H.
  - injection H as <-. repeat split; auto. intros i [].
  - inversion Hr as [|? ? Hp Hk]; subst. unfold iloc_set in H.
    destruct (p <? 0)%Z eqn:E1; [lia|].
    destruct ((p <? 0)%Z || (Z.of_nat (length flags) <=? p)%Z) eqn:E2.
    { apply orb_true_iff in E2. destruct E2; lia. }
    simpl in H.
    destruct (IH (set_nth (Z.to_nat p) 1%Z flags) flags') as [L [H1 [H0 Hc]]];
      [rewrite set_nth_length; exact Hk | exact H |].
    rewrite set_nth_length in L.
    split; [exact L|]. split; [|split].
    + intros i [Hi | Hi]; [|auto].
      destruct (in_dec Z.eq_dec (Z.of_nat i) keep) as [Hin | Hnin]; [auto|].
      rewrite (H0 i Hnin), set_nth_nth. subst p. rewrite Nat2Z.id.
      rewrite Nat.eqb_refl.
      replace (i <? length flags)%nat with true
        by (symmetry; apply Nat.ltb_lt; lia).
      reflexivity.
    + intros i Hi. simpl in Hi.
      rewrite (H0 i) by tauto. rewrite set_nth_nth.
      destruct (i =? Z.to_nat p)%nat eqn:E; [|reflexivity].
      apply Nat.eqb_eq in E. exfalso. apply Hi. left. lia.
    + intros Hnd Hz. inversion Hnd as [|? ? Hnp Hnd']; subst.
      rewrite Hc; [|exact Hnd'|].
      * rewrite count_set_nth; [simpl; lia | lia |].
        apply Hz. simpl. auto.
      * intros q Hq. rewrite set_nth_nth.
        destruct (Z.to_nat q =? Z.to_nat p)%nat eqn:E.
        -- apply Nat.eqb_eq in E. rewrite Forall_forall in Hk.
           specialize (Hk q Hq). exfalso. apply Hnp.
           replace p with q by lia. exact Hq.
        -- apply Hz. simpl. auto.
Qed.

Lemma count_flags_repeat (n : nat) : count_flags (repeat 0%Z n) = 0%nat.
Proof.
  unfold count_flags. induction n as [|n IH]; simpl; [reflexivity|].
  exact IH.
Qed.

(** X1.  The flag sequence returned by [detect_swings] has one cell per
    cell of the momentum series, holds 1 exactly at the kept positions and 0
    elsewhere, and has as many cells set as there are kept positions. *)
Theorem detect_swings_flags_mark_keep (m : Series) (params : SwingParams)
  (flags keep : list Z) (thr : value) :
  detect_swings m params = Ok (flags, keep, thr) ->
  length flags = length m
  /\ (forall i : nat, (i < length m)%nat ->
        nth i flags 0%Z = if in_dec Z.eq_dec (Z.of_nat i) keep
                          then 1%Z else 0%Z)
  /\ count_flags flags = length keep.
Proof.
  intros H. pose proof (detect_swings_flags m params flags keep thr H) as Hf.
  destruct (detect_swings_inv m params flags keep thr H)
    as [trend [_ [_ [_ [Hl [Hi Hs]]]]]].
  assert (Hr : Forall (fun p => 0 <= p < Z.of_nat
                                  (length (repeat 0%Z (length m))))%Z keep).
  { apply Forall_forall. intros p Hp. rewrite repeat_length.
    destruct (candidates_spec m trend thr) as [_ Hc].
    apply (Hc p (Hi p Hp)). }
  destruct (set_flags_spec keep _ _ Hr Hf) as [_ [H1 [H0 Hc]]].
  split; [exact Hl|]. split.
  - intros i Hi'. destruct (in_dec Z.eq_dec (Z.of_nat i) keep) as [Hin | Hn].
    + apply H1. exact Hin.
    + rewrite (H0 i Hn). apply nth_repeat.
  - rewrite Hc, count_flags_repeat; [reflexivity | |].
    + apply StronglySorted_lt_NoDup. apply (Sorted_apart_lt (cool params)).
      exact Hs.
    + intros p _. rewrite nth_repeat. discriminate.
Qed.

Lemma detect_swings_flags_mark_keep_witness :
  length [0; 0; 0; 0; 1; 0; 0; 0; 1; 0; 0; 0; 0]%Z = length example_momentum
  /\ (forall i : nat, (i < length example_momentum)%nat ->
        nth i [0; 0; 0; 0; 1; 0; 0; 0; 1; 0; 0; 0; 0]%Z 0%Z
        = if in_dec Z.eq_dec (Z.of_nat i) [4; 8]%Z then 1%Z else 0%Z)
  /\ count_flags [0; 0; 0; 0; 1; 0; 0; 0; 1; 0; 0; 0; 0]%Z
     = length [4; 8]%Z.
Proof.
  apply (detect_swings_flags_mark_keep example_momentum example_params
           [0; 0; 0; 0; 1; 0; 0; 0; 1; 0; 0; 0; 0]%Z [4; 8]%Z
           (Some (4 # 4))).
  vm_compute. reflexivity.
Defined.

(** ** Cooldown on its own *)

Lemma sorted_nondecreasing (l : list Z) : Sorted Z.le l -> sorted l = l.
Proof.
  induction 1 as [|a l Hl IH Ha]; [reflexivity|].
  unfold sorted in *. simpl. rewrite IH.
  destruct Ha as [|b l Hab]; simpl; [reflexivity|].
  destruct (a <=? b)%Z eqn:E; [reflexivity|]. apply Z.leb_gt in E. lia.
Qed.

Lemma Sorted_spaced_le (cool : Z) (l : list Z) :
  Sorted (spaced cool) l -> Sorted Z.le l.
Proof.
  induction 1 as [|x l Hl IH Hx]; constructor; [exact IH|].
  destruct Hx as [|y l' [Hxy _]]; constructor. exact Hxy.
Qed.

(** A list whose gaps are already large enough goes through the loop
    without a single read of the series. *)
Lemma cooldown_loop_spaced (m : Series) (cool : Z) (todo : list Z) :
  forall last before,
    Sorted (spaced cool) (last :: todo) ->
    cooldown_loop m cool (last :: before) todo
    = Ok (rev before ++ last :: todo).
Proof.
  induction todo as [|p todo IH]; intros last before Hs; simpl.
  - reflexivity.
  - inversion Hs as [|? ? Hs' Hh]; subst.
    inversion Hh as [|? ? [Hle Hgap]]; subst.
    replace (cool <=? p - last)%Z with true by (symmetry; apply Z.leb_le; lia).
    rewrite (IH p (last :: before) Hs'). simpl.
    rewrite <- app_assoc. reflexivity.
Qed.

Lemma cooldown_spaced (m : Series) (cool : Z) (l : list Z) :
  Sorted (spaced cool) l -> _apply_cooldown_keep_max_abs m l cool = Ok l.
Proof.
  intros Hs. unfold _apply_cooldown_keep_max_abs.
  rewrite sorted_nondecreasing by (apply (Sorted_spaced_le cool); exact Hs).
  destruct l as [|first others]; [reflexivity|].
  apply (cooldown_loop_spaced m cool others first [] Hs).
Qed.

Lemma cooldown_loop_result (m : Series) (cool : Z) (todo : list Z) :
  forall final_rev out,
    Sorted (fun a b => spaced cool b a) final_rev ->
    Sorted Z.le todo ->
    Forall (Z.le (hd 0%Z final_rev)) todo ->
    cooldown_loop m cool final_rev todo = Ok out ->
    Sorted (spaced cool) out /\ incl out (final_rev ++ todo).
Proof.
  induction todo as [|p todo IH]; intros final_rev out Hf Ht Hle H;
    simpl in H.
  - injection H as <-. split.
    + apply Sorted_rev_flip. exact Hf.
    + rewrite app_nil_r. intros x Hx. apply in_rev. exact Hx.
  - destruct final_rev as [|last before]; [discriminate|]. simpl in Hle.
    inversion Hle as [|? ? Hlp Hle']; subst.
    assert (Ht' : Sorted Z.le todo) by (inversion Ht; assumption).
    assert (Hp : Forall (Z.le p) todo).
    { apply Sorted_StronglySorted in Ht; [|exact Z.le_trans].
      inversion Ht; assumption. }
    destruct (cool <=? p - last)%Z eqn:E.
    + apply Z.leb_le in E.
      destruct (IH (p :: last :: before) out) as [Hs Hi]; auto.
      * constructor; [exact Hf|]. constructor. split; assumption.
      * split; [exact Hs|]. intros x Hx. apply Hi in Hx. mem.
    + apply Z.leb_gt in E.
      destruct (abs_at m p) as [kp|e]; [|discriminate].
      destruct (abs_at m last) as [kl|e]; [|discriminate]. simpl in H.
      destruct (vgt kp kl).
      * destruct (IH (p :: before) out) as [Hs Hi]; auto.
        -- inversion Hf as [|? ? Hb Hh]; subst. constructor; [exact Hb|].
           destruct Hh as [|b before' [H1 H2]]; constructor.
           unfold spaced. lia.
        -- split; [exact Hs|]. intros x Hx. apply Hi in Hx. mem.
      * destruct (IH (last :: before) out) as [Hs Hi]; auto.
        split; [exact Hs|]. intros x Hx. apply Hi in Hx. mem.
Qed.

Lemma cooldown_result (m : Series) (cool : Z) (l keep : list Z) :
  _apply_cooldown_keep_max_abs m l cool = Ok keep ->
  Sorted (spaced cool) keep /\ incl keep l.
Proof.
  unfold _apply_cooldown_keep_max_abs. intros H.
  pose proof (sorted_is_sorted l) as Hs.
  assert (Hin : incl (sorted l) l) by (intros x Hx; apply sorted_in; exact Hx).
  destruct (sorted l) as [|first others].
  - injection H as <-. split; [constructor | intros x []].
  - destruct (cooldown_loop_result m cool others [first] keep) as [Hk Hi];
      auto.
    + inversion Hs; assumption.
    + simpl. apply Sorted_StronglySorted in Hs; [|exact Z.le_trans].
      inversion Hs; assumption.
    + split; [exact Hk|]. intros x Hx. apply Hin, Hi, Hx.
Qed.

(** X2.  Whatever list of positions it is given, a cooldown that returns
    gives a sub-collection of its input, in non-decreasing order with
    consecutive entries at least [cool] apart; and this result is a fixed
    point: cooling it again, over any series, returns it unchanged. *)
Theorem apply_cooldown_fixed_point (m : Series) (cool : Z)
  (keep_pos keep : list Z) :
  _apply_cooldown_keep_max_abs m keep_pos cool = Ok keep ->
  incl keep keep_pos
  /\ (forall i : nat, (S i < length keep)%nat ->
        (nth i keep 0 <= nth (S i) keep 0
         /\ cool <= nth (S i) keep 0 - nth i keep 0)%Z)
  /\ forall m' : Series, _apply_cooldown_keep_max_abs m' keep cool = Ok keep.
Proof.
  intros H. destruct (cooldown_result m cool keep_pos keep H) as [Hs Hi].
  split; [exact Hi|]. split.
  - intros i Hlt. exact (Sorted_nth _ keep 0%Z Hs i Hlt).
  - intros m'. apply cooldown_spaced. exact Hs.
Qed.

Lemma apply_cooldown_fixed_point_witness :
  incl [1; 7; 10]%Z [10; 1; 3; 7]%Z
  /\ (forall i : nat, (S i < length [1; 7; 10]%Z)%nat ->
        (nth i [1; 7; 10] 0 <= nth (S i) [1; 7; 10] 0
         /\ 3 <= nth (S i) [1; 7; 10] 0 - nth i [1; 7; 10] 0)%Z)
  /\ forall m' : Series,
       _apply_cooldown_keep_max_abs m' [1; 7; 10]%Z 3 = Ok [1; 7; 10]%Z.
Proof.
  apply (apply_cooldown_fixed_point scenario_momentum 3 [10; 1; 3; 7]%Z
           [1; 7; 10]%Z).
  vm_compute. reflexivity.
Defined.

Lemma vgt_usable (m : Series) (p q : Z) :
  vgt (Some (magnitude m p)) (Some (magnitude m q)) = true
  <-> magnitude m q < magnitude m p.
Proof. simpl. apply Qltb_lt. Qed.

Lemma vgt_usable_false (m : Series) (p q : Z) :
  vgt (Some (magnitude m p)) (Some (magnitude m q)) = false ->
  magnitude m p <= magnitude m q.
Proof.
  intros H. destruct (Qlt_le_dec (magnitude m q) (magnitude m p)) as [L|L];
    [|exact L].
  apply vgt_usable in L. congruence.
Qed.

Lemma cooldown_loop_dominates (m : Series) (cool : Z) (todo : list Z) :
  forall final_rev out,
    Forall (usable_at m) (final_rev ++ todo) ->
    cooldown_loop m cool final_rev todo = Ok out ->
    forall p, In p (final_rev ++ todo) ->
      exists k, In k out /\ dominates m k p.
Proof.
  induction todo as [|p0 todo IH]; intros final_rev out Hu H p Hp;
    simpl in H.
  - injection H as <-. rewrite app_nil_r in Hp. exists p.
    split; [apply in_rev in Hp; exact Hp | apply Qle_refl].
  - destruct final_rev as [|last before]; [discriminate|].
    assert (Hup : usable_at m p0)
      by (rewrite Forall_forall in Hu; apply Hu; mem).
    assert (Hul : usable_at m last)
      by (rewrite Forall_forall in Hu; apply Hu; mem).
    destruct (cool <=? p0 - last)%Z.
    + apply (IH (p0 :: last :: before) out); auto.
      * sub_range Hu.
      * mem.
    + rewrite (abs_at_usable m p0 Hup), (abs_at_usable m last Hul) in H.
      cbn [bind] in H.
      destruct (vgt (Some (magnitude m p0)) (Some (magnitude m last))) eqn:E.
      * assert (Hrec : forall q, In q ((p0 :: before) ++ todo) ->
                  exists k, In k out /\ dominates m k q).
        { apply (IH (p0 :: before) out); auto. sub_range Hu. }
        destruct (Z.eq_dec p last) as [-> | Hne].
        -- destruct (Hrec p0) as [k [Hk Hd]]; [mem|].
           exists k. split; [exact Hk|]. apply vgt_usable in E.
           unfold dominates in *. lra.
        -- apply Hrec. mem. contradiction.
      * assert (Hrec : forall q, In q ((last :: before) ++ todo) ->
                  exists k, In k out /\ dominates m k q).
        { apply (IH (last :: before) out); auto. sub_range Hu. }
        destruct (Z.eq_dec p p0) as [-> | Hne].
        -- destruct (Hrec last) as [k [Hk Hd]]; [mem|].
           exists k. split; [exact Hk|]. apply vgt_usable_false in E.
           unfold dominates in *. lra.
        -- apply Hrec. mem. contradiction.
Qed.

Lemma cooldown_dominates (m : Series) (cool : Z) (l keep : list Z) :
  Forall (usable_at m) l ->
  _apply_cooldown_keep_max_abs m l cool = Ok keep ->
  forall p, In p l -> exists k, In k keep /\ dominates m k p.
Proof.
  intros Hu H p Hp. unfold _apply_cooldown_keep_max_abs in H.
  apply sorted_in in Hp.
  assert (Hus : Forall (usable_at m) (sorted l)).
  { rewrite Forall_forall in *. intros x Hx. apply Hu, sorted_in, Hx. }
  destruct (sorted l) as [|first others]; [contradiction|].
  apply (cooldown_loop_dominates m cool others [first] keep Hus H p Hp).
Qed.

(** X3.  Over positions with usable cells, the cooldown never loses the
    strongest swing: every input position is matched by a kept position of
    at least its magnitude, and a non-empty input gives a non-empty
    result. *)
Theorem apply_cooldown_keeps_strongest (m : Series) (cool : Z)
  (keep_pos keep : list Z) :
  Forall (usable_at m) keep_pos ->
  _apply_cooldown_keep_max_abs m keep_pos cool = Ok keep ->
  (forall p, In p keep_pos ->
     exists k, In k keep /\ magnitude m p <= magnitude m k)
  /\ (keep_pos <> [] -> keep <> []).
Proof.
  intros Hu H.
  pose proof (cooldown_dominates m cool keep_pos keep Hu H) as Hdom.
  split; [exact Hdom|].
  intros Hne. destruct keep_pos as [|p l]; [congruence|].
  destruct (Hdom p (or_introl eq_refl)) as [k [Hk _]].
  intros ->. contradiction.
Qed.

Lemma apply_cooldown_keeps_strongest_witness :
  (forall p, In p [4; 8]%Z ->
     exists k, In k [8%Z] /\ magnitude example_momentum p
                            <= magnitude example_momentum k)
  /\ ([4; 8]%Z <> [] -> [8%Z] <> []).
Proof.
  apply (apply_cooldown_keeps_strongest example_momentum 5 [4; 8]%Z [8%Z]).
  - repeat constructor; simpl; try lia; discriminate.
  - vm_compute. reflexivity.
Defined.

(** ** Run compression on its own *)

Lemma in_boundsb_spec (n : nat) (p : Z) :
  in_boundsb n p = true <-> in_bounds n p.
Proof.
  unfold in_boundsb, in_bounds.
  rewrite andb_true_iff, Z.leb_le, Z.ltb_lt. tauto.
Qed.

Lemma forallb_in_bounds (n : nat) (l : list Z) :
  forallb (in_boundsb n) l = true <-> Forall (in_bounds n) l.
Proof.
  rewrite forallb_forall, Forall_forall.
  split; intros H x Hx; apply in_boundsb_spec, H, Hx.
Qed.

Lemma iloc_outcome {A : Type} (s : list A) (p : Z) :
  if in_boundsb (length s) p then exists v, iloc s p = Ok v
  else iloc s p = Raise IndexError_iloc.
Proof.
  destruct (in_boundsb (length s) p) eqn:E.
  - apply in_boundsb_spec in E. unfold in_bounds in E. unfold iloc.
    set (q := if (p <? 0)%Z then (Z.of_nat (length s) + p)%Z else p).
    assert (Hq : (0 <= q < Z.of_nat (length s))%Z).
    { unfold q. destruct (p <? 0)%Z eqn:Ep;
        [apply Z.ltb_lt in Ep | apply Z.ltb_ge in Ep]; lia. }
    replace ((q <? 0)%Z || (Z.of_nat (length s) <=? q)%Z) with false
      by (symmetry; apply orb_false_iff; split;
          [apply Z.ltb_ge | apply Z.leb_gt]; lia).
    destruct (nth_error s (Z.to_nat q)) as [v|] eqn:En; [eauto|].
    apply nth_error_None in En. lia.
  - unfold in_boundsb in E. apply andb_false_iff in E. unfold iloc.
    set (q := if (p <? 0)%Z then (Z.of_nat (length s) + p)%Z else p).
    replace ((q <? 0)%Z || (Z.of_nat (length s) <=? q)%Z) with true;
      [reflexivity|].
    symmetry. apply orb_true_iff. unfold q.
    destruct E as [E | E]; [apply Z.leb_gt in E | apply Z.ltb_ge in E].
    + left. replace (p <? 0)%Z with true by (symmetry; apply Z.ltb_lt; lia).
      apply Z.ltb_lt. lia.
    + right. replace (p <? 0)%Z with false by (symmetry; apply Z.ltb_ge; lia).
      apply Z.leb_le. lia.
Qed.

Lemma abs_at_outcome (m : Series) (p : Z) :
  if in_boundsb (length m) p then exists k, abs_at m p = Ok k
  else abs_at m p = Raise IndexError_iloc.
Proof.
  pose proof (iloc_outcome m p) as H. unfold abs_at.
  destruct (in_boundsb (length m) p).
  - destruct H as [v ->]. simpl. eauto.
  - rewrite H. reflexivity.
Qed.

Lemma max_from_outcome (m : Series) (group : list Z) :
  forall b kb,
    if forallb (in_boundsb (length m)) group
    then exists best, max_from m b kb group = Ok best
                      /\ (best = b \/ In best group)
    else max_from m b kb group = Raise IndexError_iloc.
Proof.
  induction group as [|p group IH]; intros b kb; simpl.
  - exists b. auto.
  - pose proof (abs_at_outcome m p) as Hp.
    destruct (in_boundsb (length m) p); simpl.
    + destruct Hp as [k ->]. simpl.
      destruct (vgt k kb); [specialize (IH p k) | specialize (IH b kb)];
        destruct (forallb (in_boundsb (length m)) group); auto;
        destruct IH as [best [E Hb]]; exists best; (split; [exact E|]);
        destruct Hb as [-> | Hb]; auto.
    + rewrite Hp. reflexivity.
Qed.

Lemma max_by_abs_outcome (m : Series) (p : Z) (group : list Z) :
  if forallb (in_boundsb (length m)) (p :: group)
  then exists best, max_by_abs m (p :: group) = Ok best
                    /\ In best (p :: group)
  else max_by_abs m (p :: group) = Raise IndexError_iloc.
Proof.
  simpl. pose proof (abs_at_outcome m p) as Hp.
  destruct (in_boundsb (length m) p); simpl.
  - destruct Hp as [k ->]. simpl.
    pose proof (max_from_outcome m group p k) as H.
    destruct (forallb (in_boundsb (length m)) group); [|exact H].
    destruct H as [best [E Hb]]. exists best. split; [exact E|].
    destruct Hb as [-> | Hb]; auto.
  - rewrite Hp. reflexivity.
Qed.

Lemma compress_loop_outcome (m : Series) (n : nat) :
  forall l, (length l <= n)%nat ->
    if forallb (in_boundsb (length m)) l
    then exists keep, compress_loop m l = Ok keep
                      /\ incl keep l
                      /\ (length keep <= length l)%nat
                      /\ (l <> [] -> keep <> [])
    else compress_loop m l = Raise IndexError_iloc.
Proof.
  induction n as [|n IH]; intros l Hlen.
  - destruct l; [|simpl in Hlen; lia]. simpl.
    exists []. rewrite compress_loop_equation_1.
    repeat split; auto. apply incl_refl.
  - destruct l as [|p rest].
    + simpl. exists []. rewrite compress_loop_equation_1.
      repeat split; auto. apply incl_refl.
    + rewrite compress_loop_cons.
      destruct (extend_group p rest) as [g rest'] eqn:E. cbn [fst snd].
      destruct (extend_group_spec rest p g rest' E) as [-> _].
      change (p :: g ++ rest') with ((p :: g) ++ rest').
      rewrite forallb_app.
      pose proof (max_by_abs_outcome m p g) as Hmax.
      destruct (forallb (in_boundsb (length m)) (p :: g));
        [|rewrite Hmax; reflexivity].
      destruct Hmax as [best [-> Hbest]].
      assert (Hl' : (length rest' <= n)%nat)
        by (simpl in Hlen; rewrite length_app in Hlen; lia).
      specialize (IH rest' Hl').
      destruct (forallb (in_boundsb (length m)) rest'); simpl;
        [|rewrite IH; reflexivity].
      destruct IH as [keep [-> [Hi [Hk _]]]].
      exists (best :: keep). split; [reflexivity|]. split; [|split].
      * intros x [<- | Hx];
          [apply (in_or_app (p :: g) rest'); left; exact Hbest|].
        apply (in_or_app (p :: g) rest'). right. apply Hi. exact Hx.
      * simpl. rewrite length_app. simpl in Hk. lia.
      * discriminate.
Qed.

(** X4.  Run compression reads the series at every position it is given
    (a negative position counts from the end): it returns exactly when all
    positions lie within the series, with a non-empty sub-collection of a
    non-empty input, and raises IndexError otherwise. *)
Theorem compress_consecutive_returns_iff (m : Series) (pos_idx : list Z) :
  (Forall (in_bounds (length m)) pos_idx ->
   exists keep,
     _compress_consecutive_by_max_abs m pos_idx = Ok keep
     /\ incl keep pos_idx
     /\ (length keep <= length pos_idx)%nat
     /\ (pos_idx <> [] -> keep <> []))
  /\ (~ Forall (in_bounds (length m)) pos_idx ->
      _compress_consecutive_by_max_abs m pos_idx = Raise IndexError_iloc).
Proof.
  rewrite compress_consecutive_unfold.
  pose proof (compress_loop_outcome m (length (sorted pos_idx))
                (sorted pos_idx) (le_n _)) as H.
  assert (Hiff : Forall (in_bounds (length m)) (sorted pos_idx)
                 <-> Forall (in_bounds (length m)) pos_idx).
  { rewrite !Forall_forall.
    split; intros Hf x Hx; apply Hf; apply sorted_in; auto. }
  destruct (forallb (in_boundsb (length m)) (sorted pos_idx)) eqn:E.
  - split; [|intros Hn; exfalso; apply Hn, Hiff, forallb_in_bounds, E].
    intros _. destruct H as [keep [Hk [Hi [Hl Hne]]]].
    exists keep. split; [exact Hk|]. split; [|split].
    + intros x Hx. apply sorted_in, Hi, Hx.
    + rewrite sorted_length in Hl. exact Hl.
    + intros Hp. apply Hne. intros Hs.
      apply (f_equal (@length Z)) in Hs. rewrite sorted_length in Hs.
      destruct pos_idx; [congruence | discriminate].
  - split; [|intros _; exact H].
    intros Hf. apply Hiff, forallb_in_bounds in Hf. congruence.
Qed.

Lemma compress_consecutive_returns_iff_witness :
  (exists keep,
     _compress_consecutive_by_max_abs scenario_momentum [-1; 3; 2]%Z = Ok keep
     /\ incl keep [-1; 3; 2]%Z
     /\ (length keep <= length [-1; 3; 2]%Z)%nat
     /\ ([-1; 3; 2]%Z <> [] -> keep <> []))
  /\ _compress_consecutive_by_max_abs scenario_momentum [2; 11]%Z
     = Raise IndexError_iloc.
Proof.
  split.
  - apply (proj1 (compress_consecutive_returns_iff scenario_momentum
                    [-1; 3; 2]%Z)).
    repeat constructor; simpl; lia.
  - apply (proj2 (compress_consecutive_returns_iff scenario_momentum
                    [2; 11]%Z)).
    intros H. inversion H as [|? ? _ H']; subst.
    inversion H' as [|? ? [_ Hb] _]; subst. simpl in Hb. lia.
Defined.

Lemma insert_pos_NoDup (x : Z) (l : list Z) :
  ~ In x l -> NoDup l -> NoDup (insert_pos x l).
Proof.
  intros Hx Hl. induction Hl as [|a l Ha Hl IH]; simpl.
  - constructor; [tauto | constructor].
  - destruct (x <=? a)%Z.
    + constructor; [exact Hx | constructor; assumption].
    + constructor.
      * rewrite insert_pos_in. simpl in Hx. intros [-> | Hin]; tauto.
      * apply IH. simpl in Hx. tauto.
Qed.

Lemma sorted_NoDup (l : list Z) :
  NoDup l -> StronglySorted Z.lt (sorted l).
Proof.
  intros Hnd.
  assert (Hnd' : NoDup (sorted l)).
  { unfold sorted. induction Hnd as [|a l Ha Hl IH]; simpl; [constructor|].
    apply insert_pos_NoDup; [|exact IH].
    intros Hin. apply Ha. apply sorted_in. exact Hin. }
  pose proof (sorted_is_sorted l) as Hs.
  apply Sorted_StronglySorted in Hs; [|exact Z.le_trans].
  induction Hs as [|a s Hs IH Ha]; constructor.
  - apply IH. inversion Hnd'; assumption.
  - inversion Hnd' as [|? ? Hna _]; subst.
    rewrite Forall_forall in *. intros x Hx. specialize (Ha x Hx).
    assert (x <> a) by (intros ->; contradiction). lia.
Qed.

Lemma StronglySorted_app (l r : list Z) :
  StronglySorted Z.lt (l ++ r) ->
  StronglySorted Z.lt r
  /\ forall x y, In x l -> In y r -> (x < y)%Z.
Proof.
  induction l as [|a l IH]; simpl; intros H.
  - split; [exact H | intros x y []].
  - inversion H as [|? ? Hs Ha]; subst. destruct (IH Hs) as [Hr Hlt].
    split; [exact Hr|]. intros x y [<- | Hx] Hy; [|auto].
    rewrite Forall_forall in Ha. apply Ha. apply in_or_app. auto.
Qed.

(** A run holds exactly the integers from its first to its last position. *)
Lemma run_from_interval (g : list Z) :
  forall p, run_from p g ->
    last (p :: g) 0%Z = (p + Z.of_nat (length g))%Z
    /\ forall z, In z (p :: g) <-> (p <= z <= p + Z.of_nat (length g))%Z.
Proof.
  induction g as [|q g IH]; intros p Hrun.
  - simpl. split; [lia|]. intros z. split; [intros [<- | []]; lia|].
    intros Hz. left. lia.
  - destruct Hrun as [-> Hrun]. destruct (IH _ Hrun) as [Hlast Hin].
    split.
    + change (last (p :: (p + 1)%Z :: g) 0%Z) with (last ((p + 1)%Z :: g) 0%Z).
      rewrite Hlast. simpl length. lia.
    + intros z. change (In z (p :: (p + 1)%Z :: g))
        with (p = z \/ In z ((p + 1)%Z :: g)).
      rewrite Hin. simpl length. lia.
Qed.

Lemma is_run_interval (g : list Z) :
  is_run g ->
  In (hd 0%Z g) g /\ In (last g 0%Z) g
  /\ forall z, In z g <-> (hd 0%Z g <= z <= last g 0%Z)%Z.
Proof.
  destruct g as [|p g]; [intros []|]. intros Hrun.
  destruct (run_from_interval g p Hrun) as [Hlast Hin].
  split; [simpl; auto|]. split.
  - apply Hin. rewrite Hlast. lia.
  - intros z. rewrite Hin, Hlast. simpl hd. tauto.
Qed.

Lemma groups_separated (groups : list (list Z)) (keep : list Z) :
  Forall2 (fun g r => In r g) groups keep ->
  Forall is_run groups ->
  maximal_runs groups ->
  StronglySorted Z.lt (concat groups) ->
  Sorted (apart 2) keep
  /\ match groups, keep with
     | g :: _, r :: _ => (hd 0%Z g <= r)%Z
     | _, _ => True
     end.
Proof.
  induction 1 as [|g r groups keep Hin Hrest IH]; intros Hruns Hmax Hs.
  - split; [constructor | exact I].
  - inversion Hruns as [|? ? Hg Hruns']; subst.
    simpl in Hmax. destruct Hmax as [Hnext Hmax].
    simpl in Hs. destruct (StronglySorted_app _ _ Hs) as [Hs' Hlt].
    destruct (IH Hruns' Hmax Hs') as [Hk Hhd].
    destruct (is_run_interval g Hg) as [_ [Hlast Hint]].
    split; [|apply Hint; exact Hin].
    constructor; [exact Hk|].
    destruct Hrest as [|g2 r2 groups' keep' Hin2 _]; constructor.
    inversion Hruns' as [|? ? Hg2 _]; subst.
    destruct (is_run_interval g2 Hg2) as [Hhd2 _].
    assert (last g 0 < hd 0 g2)%Z.
    { apply Hlt; [exact Hlast|]. simpl. apply in_or_app. left. exact Hhd2. }
    apply Hint in Hin. unfold apart. lia.
Qed.

Lemma compress_loop_separated (m : Series) (l : list Z) :
  Sorted (apart 2) l -> Forall (in_range m) l -> compress_loop m l = Ok l.
Proof.
  induction 1 as [|p l Hl IH Hp]; intros Hr.
  - apply compress_loop_equation_1.
  - inversion Hr as [|? ? Hrp Hrl]; subst.
    rewrite compress_loop_cons.
    assert (E : extend_group p l = ([], l)).
    { destruct Hp as [|q l' [Hlt Hgap]]; simpl; [reflexivity|].
      replace (q =? p + 1)%Z with false; [reflexivity|].
      symmetry. apply Z.eqb_neq. lia. }
    rewrite E. cbn [fst snd]. simpl max_by_abs.
    rewrite abs_at_in_range by exact Hrp. simpl.
    rewrite (IH Hrl). reflexivity.
Qed.

Lemma in_concat_group (groups : list (list Z)) (keep : list Z) (p : Z) :
  Forall2 (fun g r => In r g) groups keep ->
  In p (concat groups) ->
  exists g r, In g groups /\ In p g /\ In r g /\ In r keep.
Proof.
  induction 1 as [|g r groups keep Hin _ IH]; simpl; [intros []|].
  intros Hp. apply in_app_or in Hp. destruct Hp as [Hp | Hp].
  - exists g, r. auto.
  - destruct (IH Hp) as [g' [r' [H1 [H2 [H3 H4]]]]].
    exists g', r'. auto.
Qed.

Lemma groups_dominate (m : Series) (groups : list (list Z))
  (keep : list Z) :
  Forall2 (fun g r => max_by_abs m g = Ok r) groups keep ->
  Forall (usable_at m) (concat groups) ->
  Forall is_run groups ->
  forall p, In p (concat groups) ->
    exists k, In k keep
              /\ magnitude m p <= magnitude m k
              /\ forall z, (Z.min p k <= z <= Z.max p k)%Z ->
                           In z (concat groups).
Proof.
  induction 1 as [|g r groups keep Hr _ IH]; intros Hus Hruns p Hp;
    [contradiction|].
  simpl in Hp, Hus. apply Forall_app in Hus. destruct Hus as [Hug Hus].
  inversion Hruns as [|? ? Hg Hruns']; subst.
  apply in_app_or in Hp. destruct Hp as [Hp | Hp].
  - destruct g as [|p0 g]; [contradiction|].
    destruct (max_by_abs_representative m p0 g r Hug Hr)
      as [pre [post [Eg [Hpre Hpost]]]].
    destruct (is_run_interval (p0 :: g) Hg) as [_ [_ Hint]].
    exists r. split; [simpl; auto|]. split.
    + rewrite Eg in Hp. apply in_app_or in Hp.
      destruct Hp as [Hp | [<- | Hp]];
        [apply Qlt_le_weak; auto | apply Qle_refl | auto].
    + intros z Hz. cbn [concat]. apply in_or_app. left. apply Hint.
      assert (Hrg : In r (p0 :: g))
        by (rewrite Eg; apply in_or_app; simpl; auto).
      apply Hint in Hp. apply Hint in Hrg. lia.
  - destruct (IH Hus Hruns' p Hp) as [k [Hk [Hd Hz]]].
    exists k. split; [simpl; auto|]. split; [exact Hd|].
    intros z Hzr. cbn [concat]. apply in_or_app. right. apply Hz. exact Hzr.
Qed.

(** X5.  On distinct positions with usable cells, run compression leaves no
    two kept positions adjacent; every given position is joined to a kept
    position of at least its magnitude by a stretch of given positions; and
    compressing the result again changes nothing. *)
Theorem compress_consecutive_separates (m : Series) (pos_idx keep : list Z) :
  NoDup pos_idx -> Forall (usable_at m) pos_idx ->
  _compress_consecutive_by_max_abs m pos_idx = Ok keep ->
  (forall i : nat, (S i < length keep)%nat ->
     (nth i keep 0 + 2 <= nth (S i) keep 0)%Z)
  /\ (forall p, In p pos_idx ->
        exists k, In k keep
                  /\ magnitude m p <= magnitude m k
                  /\ forall z, (Z.min p k <= z <= Z.max p k)%Z ->
                               In z pos_idx)
  /\ _compress_consecutive_by_max_abs m keep = Ok keep.
Proof.
  intros Hnd Hu H. rewrite compress_consecutive_unfold in H.
  pose proof (sorted_NoDup pos_idx Hnd) as Hs.
  assert (Hus : Forall (usable_at m) (sorted pos_idx)).
  { rewrite Forall_forall in *. intros x Hx. apply Hu, sorted_in, Hx. }
  assert (Hrs : Forall (in_range m) (sorted pos_idx)).
  { revert Hus. apply Forall_impl. apply usable_in_range. }
  destruct (compress_loop_groups m _ (sorted pos_idx) (le_n _) Hrs)
    as [groups [keep' [Hk [Hc [Hruns [Hmax Hreps]]]]]].
  rewrite Hk in H. injection H as ->. rewrite <- Hc in Hs, Hus, Hrs.
  pose proof (groups_representatives_in m groups keep Hrs Hruns Hreps)
    as Hin.
  destruct (groups_separated groups keep Hin Hruns Hmax Hs) as [Hsep _].
  assert (Hincl : incl keep (concat groups))
    by (apply (representatives_increasing groups keep Hin Hs)).
  split; [|split].
  - intros i Hi. destruct (Sorted_nth _ keep 0%Z Hsep i Hi) as [_ Hgap].
    lia.
  - intros p Hp. apply sorted_in in Hp. rewrite <- Hc in Hp.
    destruct (groups_dominate m groups keep Hreps Hus Hruns p Hp)
      as [k [Hkin [Hd Hz]]].
    exists k. split; [exact Hkin|]. split; [exact Hd|].
    intros z Hzr. apply sorted_in. rewrite <- Hc. apply Hz. exact Hzr.
  - rewrite compress_consecutive_unfold.
    rewrite sorted_increasing by (apply (Sorted_apart_lt 2); exact Hsep).
    apply compress_loop_separated; [exact Hsep|].
    rewrite Forall_forall in *. intros x Hx. apply Hrs, Hincl, Hx.
Qed.

Lemma compress_consecutive_separates_witness :
  (forall i : nat, (S i < length [2; 5]%Z)%nat ->
     (nth i [2; 5] 0 + 2 <= nth (S i) [2; 5] 0)%Z)
  /\ (forall p, In p [5; 1; 3; 2]%Z ->
        exists k, In k [2; 5]%Z
                  /\ magnitude (map zq [0; 1; -3; 2; 0; 5; 0]%Z) p
                     <= magnitude (map zq [0; 1; -3; 2; 0; 5; 0]%Z) k
                  /\ forall z, (Z.min p k <= z <= Z.max p k)%Z ->
                               In z [5; 1; 3; 2]%Z)
  /\ _compress_consecutive_by_max_abs (map zq [0; 1; -3; 2; 0; 5; 0]%Z)
       [2; 5]%Z = Ok [2; 5]%Z.
Proof.
  apply (compress_consecutive_separates (map zq [0; 1; -3; 2; 0; 5; 0]%Z)
           [5; 1; 3; 2]%Z [2; 5]%Z).
  - repeat constructor; simpl; lia.
  - repeat constructor; simpl; try lia; discriminate.
  - vm_compute. reflexivity.
Defined.

(** ** The detector end to end *)

Lemma compress_dominates (m : Series) (l keep : list Z) :
  Forall (usable_at m) l ->
  _compress_consecutive_by_max_abs m l = Ok keep ->
  forall p, In p l -> exists k, In k keep /\ dominates m k p.
Proof.
  intros Hu H p Hp. rewrite compress_consecutive_unfold in H.
  assert (Hus : Forall (usable_at m) (sorted l)).
  { rewrite Forall_forall in *. intros x Hx. apply Hu, sorted_in, Hx. }
  assert (Hrs : Forall (in_range m) (sorted l)).
  { revert Hus. apply Forall_impl. apply usable_in_range. }
  destruct (compress_loop_groups m _ (sorted l) (le_n _) Hrs)
    as [groups [keep' [Hk [Hc [Hruns [_ Hreps]]]]]].
  rewrite Hk in H. injection H as ->. rewrite <- Hc in Hus.
  apply sorted_in in Hp. rewrite <- Hc in Hp.
  destruct (groups_dominate m groups keep Hreps Hus Hruns p Hp)
    as [k [Hkin [Hd _]]].
  exists k. split; assumption.
Qed.

Lemma detect_swings_pipeline (m : Series) (params : SwingParams)
  (flags keep : list Z) (thr : value) :
  detect_swings m params = Ok (flags, keep, thr) ->
  exists trend reps,
    trend_signal m params = Ok trend
    /\ quantile (abs m) (amp_q params) = Ok thr
    /\ _compress_consecutive_by_max_abs m (candidates m trend thr) = Ok reps
    /\ _apply_cooldown_keep_max_abs m reps (cool params) = Ok keep.
Proof.
  intros H.
  destruct (detect_swings_inv m params flags keep thr H)
    as [trend [Hna [Ht [Hq _]]]].
  destruct (detect_swings_steps m params trend thr Hna Ht Hq)
    as [reps [keep' [flags' [Hr [Hk [Hd _]]]]]].
  rewrite Hd in H. injection H as -> ->.
  exists trend, reps. auto.
Qed.

(** X6.  The swings reported by [detect_swings] are candidates (positions
    passing the reversal test and the amplitude filter); every candidate is
    matched by a reported swing of at least its magnitude; and no swing is
    reported exactly when there is no candidate. *)
Theorem detect_swings_keeps_strongest (m : Series) (params : SwingParams)
  (flags keep : list Z) (thr : value) :
  detect_swings m params = Ok (flags, keep, thr) ->
  exists trend : Series,
    trend_signal m params = Ok trend
    /\ incl keep (candidates m trend thr)
    /\ (forall p, In p (candidates m trend thr) ->
          exists k, In k keep /\ magnitude m p <= magnitude m k)
    /\ (keep = [] <-> candidates m trend thr = []).
Proof.
  intros H.
  destruct (detect_swings_pipeline m params flags keep thr H)
    as [trend [reps [Ht [Hq [Hr Hk]]]]].
  destruct (detect_swings_inv m params flags keep thr H)
    as [trend' [_ [Ht' [_ [_ [Hi _]]]]]].
  rewrite Ht in Ht'. injection Ht' as <-.
  pose proof (candidates_usable m trend thr) as Hu.
  assert (Hur : Forall (usable_at m) reps).
  { destruct (candidates_spec m trend thr) as [Hs _].
    destruct (compress_increasing m _ Hs
                (Forall_impl _ (usable_in_range m) Hu))
      as [reps' [Hr' [_ Hincl]]].
    rewrite Hr in Hr'. injection Hr' as <-.
    rewrite Forall_forall in *. intros x Hx. apply Hu, Hincl, Hx. }
  assert (Hdom : forall p, In p (candidates m trend thr) ->
             exists k, In k keep /\ magnitude m p <= magnitude m k).
  { intros p Hp.
    destruct (compress_dominates m _ reps Hu Hr p Hp) as [r [Hrin Hd1]].
    destruct (cooldown_dominates m _ reps keep Hur Hk r Hrin)
      as [k [Hkin Hd2]].
    exists k. split; [exact Hkin|]. unfold dominates in *. lra. }
  exists trend. split; [exact Ht|]. split; [exact Hi|].
  split; [exact Hdom|]. split.
  - intros ->. destruct (candidates m trend thr) as [|p l]; [reflexivity|].
    destruct (Hdom p (or_introl eq_refl)) as [k [[] _]].
  - intros E. rewrite E in Hi. destruct keep as [|k keep]; [reflexivity|].
    destruct (Hi k (or_introl eq_refl)).
Qed.

Lemma detect_swings_keeps_strongest_witness :
  exists trend : Series,
    trend_signal example_momentum (mkSwingParams 1 (1 # 4) 5 true) = Ok trend
    /\ incl [8%Z] (candidates example_momentum trend (Some (4 # 4)))
    /\ (forall p, In p (candidates example_momentum trend (Some (4 # 4))) ->
          exists k, In k [8%Z]
                    /\ magnitude example_momentum p
                       <= magnitude example_momentum k)
    /\ ([8%Z] = [] <-> candidates example_momentum trend (Some (4 # 4)) = []).
Proof.
  apply (detect_swings_keeps_strongest example_momentum
           (mkSwingParams 1 (1 # 4) 5 true)
           [0; 0; 0; 0; 0; 0; 0; 0; 1; 0; 0; 0; 0]%Z [8%Z] (Some (4 # 4))).
  vm_compute. reflexivity.
Defined.

(** X7.  [detect_swings] returns a result exactly when the series has a
    usable cell, [trend_span >= 1] and [0 <= amp_q <= 1]; the threshold it
    returns is then a number.  On a series with a usable cell, a span below
    1 raises the span error, and otherwise a quantile outside [0, 1] raises
    the percentile error. *)
Theorem detect_swings_returns_iff (m : Series) (params : SwingParams) :
  ((exists flags keep thr, detect_swings m params = Ok (flags, keep, thr))
   <-> ((exists v, In (Some v) m)
        /\ (1 <= trend_span params)%Z
        /\ 0 <= amp_q params /\ amp_q params <= 1))
  /\ (forall flags keep thr,
        detect_swings m params = Ok (flags, keep, thr) -> thr <> None)
  /\ ((exists v, In (Some v) m) -> (trend_span params < 1)%Z ->
      detect_swings m params = Raise ValueError_span)
  /\ ((exists v, In (Some v) m) -> (1 <= trend_span params)%Z ->
      ~ (0 <= amp_q params /\ amp_q params <= 1) ->
      detect_swings m params = Raise ValueError_percentile).
Proof.
  assert (Hna : isna_all m = false <-> exists v, In (Some v) m).
  { split.
    - intros E. induction m as [|[x|] m IH]; simpl in E; try discriminate.
      + exists x. simpl. auto.
      + destruct (IH E) as [v Hv]. exists v. simpl. auto.
    - intros [v Hv]. destruct (isna_all m) eqn:E; [|reflexivity].
      rewrite isna_all_true in E. specialize (E _ Hv). discriminate. }
  assert (Hq : Qle_bool 0 (amp_q params) && Qle_bool (amp_q params) 1 = true
               <-> 0 <= amp_q params /\ amp_q params <= 1).
  { rewrite andb_true_iff, !Qle_bool_iff. tauto. }
  pose proof (detect_swings_outcome m params) as H.
  destruct (isna_all m) eqn:E1.
  { assert (Hno : ~ exists v, In (Some v) m).
    { intros Hv. apply Hna in Hv. discriminate. }
    split; [|split; [|split]].
    - split; [|tauto]. intros [f [k [t Ho]]]. rewrite H in Ho. discriminate.
    - intros f k t Ho. rewrite H in Ho. discriminate.
    - tauto.
    - tauto. }
  assert (Hv : exists v, In (Some v) m) by (apply Hna; reflexivity).
  destruct (trend_span params <? 1)%Z eqn:E2.
  { apply Z.ltb_lt in E2. split; [|split; [|split]].
    - split; [|intros [_ [Hs _]]; lia].
      intros [f [k [t Ho]]]. rewrite H in Ho. discriminate.
    - intros f k t Ho. rewrite H in Ho. discriminate.
    - intros _ _. exact H.
    - intros _ Hs. lia. }
  apply Z.ltb_ge in E2.
  destruct (Qle_bool 0 (amp_q params) && Qle_bool (amp_q params) 1) eqn:E3.
  - destruct H as [f [k [t Ho]]]. split; [|split; [|split]].
    + split; [intros _|intros _; eauto].
      split; [exact Hv|]. split; [exact E2|]. apply Hq. reflexivity.
    + intros f' k' t' Ho'. rewrite Ho in Ho'. injection Ho' as <- <- <-.
      discriminate.
    + intros _ Hs. lia.
    + intros _ _ Hn. exfalso. apply Hn, Hq. reflexivity.
  - split; [|split; [|split]].
    + split; [|intros [_ [_ Hr]]; apply Hq in Hr; discriminate].
      intros [f [k [t Ho]]]. rewrite H in Ho. discriminate.
    + intros f k t Ho. rewrite H in Ho. discriminate.
    + intros _ Hs. lia.
    + intros _ _ _. exact H.
Qed.

Lemma detect_swings_returns_iff_witness :
  (exists flags keep thr,
     detect_swings scenario_momentum scenario_params = Ok (flags, keep, thr))
  /\ detect_swings scenario_momentum (mkSwingParams 0 (1 # 2) 2 true)
     = Raise ValueError_span
  /\ detect_swings scenario_momentum (mkSwingParams 1 (3 # 2) 2 true)
     = Raise ValueError_percentile.
Proof.
  split; [|split].
  - apply (proj1 (detect_swings_returns_iff scenario_momentum
                    scenario_params)).
    split; [exists 1; simpl; auto|]. split; [simpl; lia|].
    split; discriminate.
  - apply (proj1 (proj2 (proj2 (detect_swings_returns_iff scenario_momentum
                                  (mkSwingParams 0 (1 # 2) 2 true))))).
    + exists 1. simpl. auto.
    + simpl. lia.
  - apply (proj2 (proj2 (proj2 (detect_swings_returns_iff scenario_momentum
                                  (mkSwingParams 1 (3 # 2) 2 true))))).
    + exists 1. simpl. auto.
    + simpl. lia.
    + simpl. intros [_ Hle]. revert Hle. apply Qlt_not_le. reflexivity.
Defined.

(** ** The amplitude threshold *)

Lemma insert_sorted_in (x y : Q) (l : list Q) :
  In y (insert_sorted x l) <-> y = x \/ In y l.
Proof.
  induction l as [|a l IH]; simpl; [intuition|].
  destruct (Qle_bool x a); simpl; [intuition|].
  rewrite IH. intuition.
Qed.

Lemma sort_values_in (y : Q) (l : list Q) :
  In y (sort_values l) <-> In y l.
Proof.
  unfold sort_values. induction l as [|a l IH]; simpl; [tauto|].
  rewrite insert_sorted_in, IH. intuition.
Qed.

Lemma insert_sorted_sorted (x : Q) (l : list Q) :
  Sorted Qle l -> Sorted Qle (insert_sorted x l).
Proof.
  induction 1 as [|a l Hl IH Ha]; simpl; [repeat constructor|].
  destruct (Qle_bool x a) eqn:E.
  - apply Qle_bool_iff in E. repeat constructor; assumption.
  - assert (Hax : a <= x).
    { destruct (Qlt_le_dec x a) as [L|L]; [|exact L].
      apply Qlt_le_weak, Qle_bool_iff in L. congruence. }
    constructor; [exact IH|].
    destruct l as [|b l]; simpl.
    + constructor. exact Hax.
    + inversion Ha; subst. destruct (Qle_bool x b); constructor; assumption.
Qed.

Lemma sort_values_sorted (l : list Q) : StronglySorted Qle (sort_values l).
Proof.
  apply Sorted_StronglySorted; [exact Qle_trans|].
  unfold sort_values. induction l as [|a l IH]; simpl; [constructor|].
  apply insert_sorted_sorted. exact IH.
Qed.

Lemma StronglySorted_Qle_nth (l : list Q) (d : Q) :
  StronglySorted Qle l ->
  forall i j, (i <= j < length l)%nat -> nth i l d <= nth j l d.
Proof.
  induction 1 as [|a l Hl IH Ha]; intros i j Hij; simpl in Hij; [lia|].
  destruct j as [|j].
  - replace i with 0%nat by lia. apply Qle_refl.
  - destruct i as [|i]; simpl.
    + rewrite Forall_forall in Ha. apply Ha. apply nth_In. lia.
    + apply IH. lia.
Qed.

Lemma dropna_abs_in (m : Series) (x : Q) :
  In x (dropna (abs m)) <-> exists v, In (Some v) m /\ x = Qabs v.
Proof.
  induction m as [|[v|] m IH]; simpl.
  - split; [intros [] | intros [v [[] _]]].
  - rewrite IH. split.
    + intros [<- | [w [Hw ->]]]; [exists v | exists w]; auto.
    + intros [w [[E | Hw] ->]]; [injection E as ->; auto|].
      right. exists w. auto.
  - rewrite IH. split.
    + intros [w [Hw ->]]. exists w. auto.
    + intros [w [[E | Hw] ->]]; [discriminate|]. exists w. auto.
Qed.

(** The quantile, as the interpolation between two cells of the sorted
    list. *)
Lemma quantile_between (s : Series) (q t : Q) :
  quantile s q = Ok (Some t) ->
  exists (vs : list Q) (lo hi : nat) (g : Q),
    vs = sort_values (dropna s)
    /\ (lo <= hi < length vs)%nat
    /\ 0 <= g /\ g < 1
    /\ t = nth lo vs 0 + (nth hi vs 0 - nth lo vs 0) * g
    /\ (q == 1 -> lo = (length vs - 1)%nat).
Proof.
  unfold quantile. destruct (Qle_bool 0 q && Qle_bool q 1) eqn:Eq;
    cbn [negb]; [|discriminate].
  apply andb_true_iff in Eq. destruct Eq as [Hq0 Hq1].
  apply Qle_bool_iff in Hq0, Hq1.
  destruct (sort_values (dropna s)) as [|x0 vs'] eqn:E; [discriminate|].
  set (vs := x0 :: vs') in *. set (n := Z.of_nat (length vs)).
  set (h := inject_Z (n - 1) * q).
  set (lo := Z.to_nat (Qfloor h)).
  set (hi := Z.to_nat (Z.min (Qfloor h + 1) (n - 1))).
  intros H.
  assert (Ht : t = nth lo vs x0
                   + (nth hi vs x0 - nth lo vs x0) * (h - inject_Z (Qfloor h)))
    by (injection H as <-; reflexivity).
  clear H.
  assert (Hn : (1 <= n)%Z) by (unfold n, vs; simpl length; lia).
  assert (Hn1 : 0 <= inject_Z (n - 1)).
  { change 0 with (inject_Z 0). rewrite <- Zle_Qle. lia. }
  assert (Hh0 : 0 <= h) by (unfold h; nra).
  assert (Hh1 : h <= inject_Z (n - 1)) by (unfold h; nra).
  assert (Hlo0 : (0 <= Qfloor h)%Z).
  { change 0%Z with (Qfloor 0). apply Qfloor_resp_le. exact Hh0. }
  assert (Hlo1 : (Qfloor h <= n - 1)%Z).
  { rewrite <- (Qfloor_Z (n - 1)). apply Qfloor_resp_le. exact Hh1. }
  assert (Hr : (lo <= hi < length vs)%nat) by (unfold lo, hi, n in *; lia).
  exists vs, lo, hi, (h - inject_Z (Qfloor h)).
  split; [reflexivity|]. split; [exact Hr|].
  pose proof (Qfloor_le h) as Hf1. pose proof (Qlt_floor h) as Hf2.
  rewrite inject_Z_plus in Hf2. change (inject_Z 1) with 1 in Hf2.
  split; [lra|]. split; [lra|]. split.
  - rewrite !(nth_indep vs x0 0) in Ht by lia. exact Ht.
  - intros Hq.
    assert (Eh : h == inject_Z (n - 1)) by (unfold h; rewrite Hq; ring).
    unfold lo. rewrite Eh, Qfloor_Z. unfold n. lia.
Qed.

(** X8.  The threshold returned by [detect_swings] is a non-negative
    number lying between the magnitudes of two cells of the series. *)
Theorem detect_swings_threshold_bounds (m : Series) (params : SwingParams)
  (flags keep : list Z) (thr : value) :
  detect_swings m params = Ok (flags, keep, thr) ->
  exists t v w : Q,
    thr = Some t
    /\ In (Some v) m /\ In (Some w) m
    /\ Qabs v <= t /\ t <= Qabs w
    /\ 0 <= t.
Proof.
  intros H.
  destruct (detect_swings_inv m params flags keep thr H)
    as [trend [_ [_ [Hq _]]]].
  assert (Hsome : exists t, thr = Some t).
  { pose proof (detect_swings_outcome m params) as Ho. rewrite H in Ho.
    destruct (isna_all m); [discriminate|].
    destruct (trend_span params <? 1)%Z; [discriminate|].
    destruct (Qle_bool 0 (amp_q params) && Qle_bool (amp_q params) 1);
      [|discriminate].
    destruct Ho as [f [k [t Ho]]]. injection Ho as _ _ ->. eauto. }
  destruct Hsome as [t ->].
  destruct (quantile_between (abs m) (amp_q params) t Hq)
    as [vs [lo [hi [g [Hvs [Hr [Hg0 [Hg1 [Ht _]]]]]]]]].
  pose proof (sort_values_sorted (dropna (abs m))) as Hs. rewrite <- Hvs in Hs.
  pose proof (StronglySorted_Qle_nth vs 0 Hs lo hi Hr) as Hle.
  assert (Hin : forall i, (i < length vs)%nat ->
            exists v, In (Some v) m /\ nth i vs 0 = Qabs v).
  { intros i Hi. apply dropna_abs_in. apply sort_values_in.
    rewrite <- Hvs. apply nth_In. exact Hi. }
  destruct (Hin lo) as [v [Hv Ev]]; [lia|].
  destruct (Hin hi) as [w [Hw Ew]]; [lia|].
  exists t, v, w. split; [reflexivity|]. split; [exact Hv|].
  split; [exact Hw|]. rewrite <- Ev, <- Ew.
  pose proof (Qabs_nonneg v) as Hnn. rewrite <- Ev in Hnn.
  subst t. repeat split; nra.
Qed.

Lemma detect_swings_threshold_bounds_witness :
  exists t v w : Q,
    Some (4 # 4) = Some t
    /\ In (Some v) example_momentum /\ In (Some w) example_momentum
    /\ Qabs v <= t /\ t <= Qabs w
    /\ 0 <= t.
Proof.
  apply (detect_swings_threshold_bounds example_momentum example_params
           [0; 0; 0; 0; 1; 0; 0; 0; 1; 0; 0; 0; 0]%Z [4; 8]%Z
           (Some (4 # 4))).
  vm_compute. reflexivity.
Defined.

(** X9.  With [amp_q = 1] the threshold is the largest magnitude of the
    series, no position can exceed it, and [detect_swings] reports no
    swing: the kept list is empty and every flag is 0. *)
Theorem detect_swings_full_quantile (m : Series) (params : SwingParams)
  (flags keep : list Z) (thr : value) :
  amp_q params == 1 ->
  detect_swings m params = Ok (flags, keep, thr) ->
  keep = []
  /\ flags = repeat 0%Z (length m)
  /\ exists t, thr = Some t
               /\ (forall v, In (Some v) m -> Qabs v <= t)
               /\ (exists w, In (Some w) m /\ t == Qabs w).
Proof.
  intros Hq1 H.
  destruct (detect_swings_inv m params flags keep thr H)
    as [trend [_ [_ [Hq [_ [Hi _]]]]]].
  assert (Hsome : exists t, thr = Some t).
  { pose proof (detect_swings_outcome m params) as Ho. rewrite H in Ho.
    destruct (isna_all m); [discriminate|].
    destruct (trend_span params <? 1)%Z; [discriminate|].
    destruct (Qle_bool 0 (amp_q params) && Qle_bool (amp_q params) 1);
      [|discriminate].
    destruct Ho as [f [k [t Ho]]]. injection Ho as _ _ ->. eauto. }
  destruct Hsome as [t ->].
  destruct (quantile_between (abs m) (amp_q params) t Hq)
    as [vs [lo [hi [g [Hvs [Hr [Hg0 [Hg1 [Ht Hlo]]]]]]]]].
  specialize (Hlo Hq1).
  assert (Ehi : hi = lo) by lia. subst hi.
  assert (Et : t == nth lo vs 0) by (rewrite Ht; ring).
  pose proof (sort_values_sorted (dropna (abs m))) as Hs. rewrite <- Hvs in Hs.
  assert (Hmax : forall v, In (Some v) m -> Qabs v <= t).
  { intros v Hv.
    assert (Hin : In (Qabs v) vs).
    { rewrite Hvs. apply sort_values_in. apply dropna_abs_in. eauto. }
    destruct (In_nth vs (Qabs v) 0 Hin) as [i [Hil Ei]].
    rewrite Et, <- Ei. apply StronglySorted_Qle_nth; [exact Hs | lia]. }
  assert (Hk : keep = []).
  { destruct keep as [|p keep]; [reflexivity|]. exfalso.
    destruct (candidates_spec m trend (Some t)) as [_ Hc].
    destruct (Hc p (Hi p (or_introl eq_refl))) as [[Hp0 Hp1] [_ Hgt]].
    destruct (nth (Z.to_nat p) m None) as [v|] eqn:En; [|discriminate].
    simpl in Hgt. apply Qltb_lt in Hgt.
    assert (Hv : In (Some v) m) by (rewrite <- En; apply nth_In; lia).
    specialize (Hmax v Hv). lra. }
  split; [exact Hk|]. split.
  - pose proof (detect_swings_flags m params flags keep (Some t) H) as Hf.
    rewrite Hk in Hf. simpl in Hf. injection Hf as <-. reflexivity.
  - exists t. split; [reflexivity|]. split; [exact Hmax|].
    assert (Hin : In (nth lo vs 0) (dropna (abs m))).
    { apply sort_values_in. rewrite <- Hvs. apply nth_In. lia. }
    apply dropna_abs_in in Hin. destruct Hin as [w [Hw Ew]].
    exists w. split; [exact Hw|]. rewrite Et, Ew. reflexivity.
Qed.

Lemma detect_swings_full_quantile_witness :
  [] = (@nil Z)
  /\ repeat 0%Z 13 = repeat 0%Z (length example_momentum)
  /\ exists t, Some (5 + (5 - 5) * (12 - 12)) = Some t
               /\ (forall v, In (Some v) example_momentum -> Qabs v <= t)
               /\ (exists w, In (Some w) example_momentum /\ t == Qabs w).
Proof.
  apply (detect_swings_full_quantile example_momentum
           (mkSwingParams 1 1 2 true) (repeat 0%Z 13) []
           (Some (5 + (5 - 5) * (12 - 12)))).
  - reflexivity.
  - vm_compute. reflexivity.
Defined.

(** ** Momentum: dispatch, lengths and missing cells *)

Lemma has_column_getitem (df : DataFrame) (c : string) :
  has_column df c = true <-> exists s, getitem df c = Ok s.
Proof.
  unfold has_column, columns. induction df as [|[c' s'] df IH]; simpl.
  - split; [discriminate | intros [s H]; discriminate].
  - destruct (String.eqb c c'); simpl; [|exact IH].
    split; [eauto | reflexivity].
Qed.

Lemma has_column_In (df : DataFrame) (c : string) :
  has_column df c = true <-> In c (columns df).
Proof.
  unfold has_column. rewrite existsb_exists. split.
  - intros [c' [Hin E]]. apply String.eqb_eq in E. now subst.
  - intros Hin. exists c. split; [exact Hin | apply String.eqb_refl].
Qed.

Lemma ewm_loop_length (com f : Q) (s : Series) :
  forall st, length (ewm_loop com f st s) = length s.
Proof. induction s as [|v s IH]; intros st; simpl; auto. Qed.

Lemma ewm_mean_outcome (s : Series) (span : Z) :
  if (span <? 1)%Z then ewm_mean s span = Raise ValueError_span
  else exists out, ewm_mean s span = Ok out /\ length out = length s.
Proof.
  unfold ewm_mean. destruct (span <? 1)%Z; [reflexivity|].
  destruct s as [|v s]; eexists; (split; [reflexivity|]); simpl;
    [reflexivity|].
  now rewrite ewm_loop_length.
Qed.

Lemma rolling_mean_outcome (s : Series) (window : Z) :
  if (window <? 1)%Z
  then exists msg, rolling_mean s window 1 = Raise (ValueError msg)
  else exists out, rolling_mean s window 1 = Ok out /\ length out = length s.
Proof.
  unfold rolling_mean, ValueError_min_periods.
  destruct (window <? 1)%Z eqn:E; [eauto|].
  apply Z.ltb_ge in E.
  replace (window <? 0)%Z with false by (symmetry; apply Z.ltb_ge; lia).
  eexists. split; [reflexivity | apply roll_loop_length].
Qed.

(** X10.  A call of [compute_momentum] that returns has read the column
    of its method ([point_col] for "rm" and "ewm", [serve_adj_col] for
    "srv_ewm"), with a window or span of at least 1, and its result has one
    cell per cell of that column; conversely, with the column present and
    the window or span at least 1, each of the three methods returns. *)
Theorem compute_momentum_returns (df : DataFrame) (method : string)
  (window span : Z) (point_col serve_adj_col : string) :
  (forall out,
     compute_momentum df method window span point_col serve_adj_col = Ok out ->
     exists col s,
       getitem df col = Ok s
       /\ length out = length s
       /\ ((method = "rm"%string /\ col = point_col /\ (1 <= window)%Z
            /\ rolling_momentum s window = Ok out)
           \/ (method = "ewm"%string /\ col = point_col /\ (1 <= span)%Z
               /\ ewm_momentum s span = Ok out)
           \/ (method = "srv_ewm"%string /\ col = serve_adj_col
               /\ (1 <= span)%Z /\ ewm_momentum s span = Ok out)))
  /\ (method = "rm"%string -> In point_col (columns df) ->
      (1 <= window)%Z ->
      exists out,
        compute_momentum df method window span point_col serve_adj_col
        = Ok out)
  /\ (method = "ewm"%string -> In point_col (columns df) ->
      (1 <= span)%Z ->
      exists out,
        compute_momentum df method window span point_col serve_adj_col
        = Ok out)
  /\ (method = "srv_ewm"%string -> In serve_adj_col (columns df) ->
      (1 <= span)%Z ->
      exists out,
        compute_momentum df method window span point_col serve_adj_col
        = Ok out).
Proof.
  split; [|split; [|split]].
  - intros out. unfold compute_momentum.
    destruct (String.eqb method "rm") eqn:E1;
      [|destruct (String.eqb method "ewm") eqn:E2;
        [|destruct (String.eqb method "srv_ewm") eqn:E3; [|discriminate]]].
    + apply String.eqb_eq in E1.
      destruct (has_column df point_col) eqn:Hc; [|discriminate]. simpl.
      apply has_column_getitem in Hc. destruct Hc as [s Hs]. rewrite Hs.
      simpl. intros H. exists point_col, s. split; [exact Hs|].
      pose proof (rolling_mean_outcome s window) as Ho.
      unfold rolling_momentum in *.
      destruct (window <? 1)%Z eqn:Ew.
      * destruct Ho as [msg Ho]. congruence.
      * apply Z.ltb_ge in Ew. destruct Ho as [out' [Ho Hl]].
        rewrite Ho in H. injection H as <-. split; [exact Hl|].
        left. auto.
    + apply String.eqb_eq in E2.
      destruct (has_column df point_col) eqn:Hc; [|discriminate]. simpl.
      apply has_column_getitem in Hc. destruct Hc as [s Hs]. rewrite Hs.
      simpl. intros H. exists point_col, s. split; [exact Hs|].
      pose proof (ewm_mean_outcome s span) as Ho. unfold ewm_momentum in *.
      destruct (span <? 1)%Z eqn:Ew; [congruence|].
      apply Z.ltb_ge in Ew. destruct Ho as [out' [Ho Hl]].
      rewrite Ho in H. injection H as <-. split; [exact Hl|].
      right. left. auto.
    + apply String.eqb_eq in E3.
      destruct (has_column df serve_adj_col) eqn:Hc; [|discriminate]. simpl.
      apply has_column_getitem in Hc. destruct Hc as [s Hs]. rewrite Hs.
      simpl. intros H. exists serve_adj_col, s. split; [exact Hs|].
      pose proof (ewm_mean_outcome s span) as Ho. unfold ewm_momentum in *.
      destruct (span <? 1)%Z eqn:Ew; [congruence|].
      apply Z.ltb_ge in Ew. destruct Ho as [out' [Ho Hl]].
      rewrite Ho in H. injection H as <-. split; [exact Hl|].
      right. right. auto.
  - intros -> Hc Hw. unfold compute_momentum. simpl.
    apply has_column_In in Hc. rewrite Hc. simpl.
    apply has_column_getitem in Hc. destruct Hc as [s ->]. simpl.
    pose proof (rolling_mean_outcome s window) as Ho.
    destruct (window <? 1)%Z eqn:Ew; [lia|].
    destruct Ho as [out [Ho _]]. exists out. exact Ho.
  - intros -> Hc Hw. unfold compute_momentum. simpl.
    apply has_column_In in Hc. rewrite Hc. simpl.
    apply has_column_getitem in Hc. destruct Hc as [s ->]. simpl.
    pose proof (ewm_mean_outcome s span) as Ho.
    destruct (span <? 1)%Z eqn:Ew; [lia|].
    destruct Ho as [out [Ho _]]. exists out. exact Ho.
  - intros -> Hc Hw. unfold compute_momentum. simpl.
    apply has_column_In in Hc. rewrite Hc. simpl.
    apply has_column_getitem in Hc. destruct Hc as [s ->]. simpl.
    pose proof (ewm_mean_outcome s span) as Ho.
    destruct (span <? 1)%Z eqn:Ew; [lia|].
    destruct Ho as [out [Ho _]]. exists out. exact Ho.
Qed.

Lemma compute_momentum_returns_witness :
  exists out,
    compute_momentum [("point_result"%string, [Some 1; Some (-1); Some 1])]
      "rm" 2 25 "point_result" "serve_adj_p1" = Ok out.
Proof.
  apply (proj1 (proj2 (compute_momentum_returns
           [("point_result"%string, [Some 1; Some (-1); Some 1])]
           "rm" 2 25 "point_result" "serve_adj_p1")));
    [reflexivity | simpl; auto | lia].
Defined.

Lemma ewm_step_weighted (com f : Q) (st : ewm_state) (cur : value) :
  (weighted st = None <-> ewm_nobs st = 0%nat) ->
  (weighted (ewm_step com f st cur) = None
   <-> ewm_nobs (ewm_step com f st cur) = 0%nat)
  /\ (weighted (ewm_step com f st cur) = None
      <-> weighted st = None /\ cur = None).
Proof.
  intros Hinv. unfold ewm_step.
  destruct (weighted st) as [w|] eqn:Ew.
  - assert (Hn : ewm_nobs st <> 0%nat) by (intros E; apply Hinv in E; discriminate).
    destruct cur as [c|]; [destruct (Qeq_bool w c)|]; simpl; split; split;
      try discriminate; try lia; intros [? ?]; discriminate.
  - assert (Hn : ewm_nobs st = 0%nat) by (apply Hinv; reflexivity).
    destruct cur as [c|]; simpl; rewrite Hn; split; split;
      try discriminate; try lia; try tauto; intros [? ?]; discriminate.
Qed.

Lemma ewm_output_none (st : ewm_state) :
  (weighted st = None <-> ewm_nobs st = 0%nat) ->
  (ewm_output st = None <-> weighted st = None).
Proof.
  intros Hinv. unfold ewm_output.
  destruct (ewm_nobs st) as [|n] eqn:E; simpl.
  - split; [intros _; apply Hinv; reflexivity | reflexivity].
  - tauto.
Qed.

Lemma ewm_loop_missing (com f : Q) (s : Series) :
  forall st i,
    (weighted st = None <-> ewm_nobs st = 0%nat) ->
    (i < length s)%nat ->
    (nth i (ewm_loop com f st s) None = None
     <-> weighted st = None /\ forall j, (j <= i)%nat -> nth j s None = None).
Proof.
  induction s as [|cur s IH]; intros st i Hinv Hi; simpl in Hi; [lia|].
  destruct (ewm_step_weighted com f st cur Hinv) as [Hinv' Hw].
  simpl. destruct i as [|i].
  - rewrite (ewm_output_none _ Hinv'), Hw. split.
    + intros [H1 H2]. split; [exact H1|]. intros j Hj.
      replace j with 0%nat by lia. exact H2.
    + intros [H1 H2]. split; [exact H1 | exact (H2 0%nat (le_n 0))].
  - rewrite (IH _ i Hinv') by lia. rewrite Hw. split.
    + intros [[H1 H2] H3]. split; [exact H1|].
      intros [|j] Hj; [exact H2 | apply H3; lia].
    + intros [H1 H2]. split; [split; [exact H1 | exact (H2 0%nat (Nat.le_0_l _))]|].
      intros j Hj. apply (H2 (S j)). lia.
Qed.

(** X12.  On any series, missing cells included, [ewm_momentum] with
    [span >= 1] returns a series of the same length whose cell [i] is
    missing exactly when every input cell up to [i] is missing: once a
    usable value has been seen, the momentum is never missing again. *)
Theorem ewm_momentum_missing (series : Series) (span : Z) :
  (1 <= span)%Z ->
  exists out : Series,
    ewm_momentum series span = Ok out
    /\ length out = length series
    /\ forall i : nat, (i < length series)%nat ->
         (nth i out None = None
          <-> forall j, (j <= i)%nat -> nth j series None = None).
Proof.
  intros Hspan. unfold ewm_momentum, ewm_mean.
  destruct (span <? 1)%Z eqn:E; [lia|].
  destruct series as [|v s].
  - exists []. repeat split; simpl in *; lia.
  - eexists. split; [reflexivity|]. split; [simpl; now rewrite ewm_loop_length|].
    set (alpha := ewm_alpha span).
    assert (Hinv : weighted (ewm_init alpha v) = None
                   <-> ewm_nobs (ewm_init alpha v) = 0%nat).
    { destruct v; simpl; split; [discriminate | lia | auto | auto]. }
    intros [|i] Hi.
    + simpl nth at 1. rewrite (ewm_output_none _ Hinv). simpl. split.
      * intros H j Hj. replace j with 0%nat by lia. exact H.
      * intros H. exact (H 0%nat (le_n 0)).
    + simpl nth at 1. rewrite (ewm_loop_missing _ _ s _ i Hinv)
        by (simpl in Hi; lia).
      simpl weighted. split.
      * intros [H1 H2] [|j] Hj; [exact H1 | apply H2; lia].
      * intros H. split; [exact (H 0%nat (Nat.le_0_l _))|].
        intros j Hj. apply (H (S j)). lia.
Qed.

Lemma ewm_momentum_missing_witness :
  exists out : Series,
    ewm_momentum example_gaps 3 = Ok out
    /\ length out = length example_gaps
    /\ forall i : nat, (i < length example_gaps)%nat ->
         (nth i out None = None
          <-> forall j, (j <= i)%nat ->
                nth j example_gaps None = None).
Proof.
  apply (ewm_momentum_missing example_gaps 3). lia.
Defined.

(** ** Constant series in binary64 *)

Section Binary64Constant.
Import PrimFloat.
Local Open Scope float_scope.

Variable c : float.
Hypothesis c_number : Float64.notnan c = true.






Variable s : Float64.Series.
Hypothesis s_constant : forall v : float, In v s -> v = c.

Variable window : nat.
Hypothesis window_ge_1 : (1 <= window)%nat.






End Binary64Constant.

Section Binary64ConstantSeries.
Import PrimFloat.
Local Open Scope float_scope.





End Binary64ConstantSeries.

(** ** Derived columns of a match *)

Lemma getitem_setitem_same (df : DataFrame) (c : string) (s : Series) :
  getitem (setitem df c s) c = Ok s.
Proof.
  induction df as [|[c' s'] df IH]; simpl.
  - now rewrite String.eqb_refl.
  - destruct (String.eqb c c') eqn:E; simpl.
    + now rewrite String.eqb_refl.
    + rewrite E. exact IH.
Qed.

Lemma getitem_setitem_other (df : DataFrame) (c c' : string) (s : Series) :
  c' <> c -> getitem (setitem df c s) c' = getitem df c'.
Proof.
  intros Hne. induction df as [|[c0 s0] df IH]; simpl.
  - apply String.eqb_neq in Hne. now rewrite Hne.
  - destruct (String.eqb c c0) eqn:E; simpl.
    + apply String.eqb_eq in E. subst c0.
      apply String.eqb_neq in Hne. now rewrite Hne.
    + destruct (String.eqb c' c0); [reflexivity | exact IH].
Qed.

Lemma columns_setitem (df : DataFrame) (c : string) (s : Series) :
  columns (setitem df c s)
  = if has_column df c then columns df else columns df ++ [c].
Proof.
  unfold has_column, columns. induction df as [|[c' s'] df IH]; simpl.
  - reflexivity.
  - destruct (String.eqb c c') eqn:E; simpl.
    + apply String.eqb_eq in E. now subst.
    + rewrite IH. destruct (existsb (String.eqb c) (map fst df)); reflexivity.
Qed.

Lemma assert_cols_outcome (df : DataFrame) (cols : list string) :
  if forallb (has_column df) cols then _assert_cols df cols = Ok tt
  else exists msg, _assert_cols df cols = Raise (KeyError msg).
Proof.
  unfold _assert_cols.
  destruct (forallb (has_column df) cols) eqn:E.
  - replace (filter (fun c => negb (has_column df c)) cols) with (@nil string);
      [reflexivity|].
    symmetry. induction cols as [|c cols IH]; [reflexivity|].
    simpl in *. apply andb_true_iff in E. destruct E as [E1 E2].
    rewrite E1. simpl. auto.
  - destruct (filter (fun c => negb (has_column df c)) cols) as [|c l] eqn:F;
      [|eauto].
    exfalso. assert (Ht : forallb (has_column df) cols = true); [|congruence].
    apply forallb_forall. intros c Hc.
    destruct (has_column df c) eqn:Hh; [reflexivity|].
    assert (Hin : In c (filter (fun c => negb (has_column df c)) cols)).
    { apply filter_In. split; [exact Hc|]. now rewrite Hh. }
    rewrite F in Hin. contradiction.
Qed.

(** X14.  [_assert_cols] passes exactly when every required column is in
    the frame, and raises KeyError as soon as one is absent. *)
Theorem assert_cols_passes_iff (df : DataFrame) (cols : list string) :
  (_assert_cols df cols = Ok tt <-> incl cols (columns df))
  /\ (~ incl cols (columns df) ->
      exists msg, _assert_cols df cols = Raise (KeyError msg)).
Proof.
  pose proof (assert_cols_outcome df cols) as H.
  assert (Hiff : forallb (has_column df) cols = true
                 <-> incl cols (columns df)).
  { rewrite forallb_forall. unfold incl.
    split; intros Hf c Hc; apply has_column_In, Hf, Hc. }
  destruct (forallb (has_column df) cols) eqn:E.
  - split; [split; [intros _; apply Hiff; reflexivity | intros _; exact H]|].
    intros Hn. exfalso. apply Hn, Hiff. reflexivity.
  - destruct H as [msg H]. split.
    + split; [intros Ho; congruence|].
      intros Hi. apply Hiff in Hi. discriminate.
    + intros _. exists msg. exact H.
Qed.

Lemma assert_cols_passes_iff_witness :
  exists msg,
    _assert_cols example_frame ["server"; "winner"]%string
    = Raise (KeyError msg).
Proof.
  apply (proj2 (assert_cols_passes_iff example_frame
                  ["server"; "winner"]%string)).
  intros H. specialize (H "winner"%string (or_intror (or_introl eq_refl))).
  simpl in H. destruct H as [H | [H | []]]; discriminate.
Defined.

Lemma assert_cols_single (df : DataFrame) (c : string) :
  if has_column df c then _assert_cols df [c] = Ok tt
  else exists msg, _assert_cols df [c] = Raise (KeyError msg).
Proof.
  pose proof (assert_cols_outcome df [c]) as H. simpl in H.
  rewrite andb_true_r in H. exact H.
Qed.

Lemma where_scalar_nth (cond : list bool) (a b : value) (i : nat) :
  (i < length cond)%nat ->
  nth i (where_scalar cond a b) None = if nth i cond false then a else b.
Proof.
  revert i. induction cond as [|c cond IH]; intros [|i] H; simpl in *;
    try lia; [reflexivity|]. apply IH. lia.
Qed.

Lemma veqb_spec (v : value) (x : Q) :
  veqb v (Some x) = true <-> exists y, v = Some y /\ y == x.
Proof.
  destruct v as [y|]; simpl.
  - rewrite Qeq_bool_iff. split; [eauto|].
    intros [z [E Hz]]. injection E as ->. exact Hz.
  - split; [discriminate | intros [z [E _]]; discriminate].
Qed.

(** X15.  [add_point_result] raises KeyError when the winner column is
    absent.  Otherwise it returns the frame with a column [point_result] as
    long as the winner column, holding +1 where the winner is 1 and -1
    everywhere else (a missing winner included); every other column is
    unchanged, and the new column is appended unless the name was already
    in use. *)
Theorem add_point_result_column (df : DataFrame) (winner_col : string) :
  (~ In winner_col (columns df) ->
   exists msg, add_point_result df winner_col = Raise (KeyError msg))
  /\ (forall victor, getitem df winner_col = Ok victor ->
      exists df' pr,
        add_point_result df winner_col = Ok df'
        /\ getitem df' "point_result" = Ok pr
        /\ length pr = length victor
        /\ (forall i : nat, (i < length victor)%nat ->
              (nth i pr None = Some 1
               /\ exists x, nth i victor None = Some x /\ x == 1)
              \/ (nth i pr None = Some (-1)
                  /\ ~ exists x, nth i victor None = Some x /\ x == 1))
        /\ (forall c, c <> "point_result"%string ->
              getitem df' c = getitem df c)
        /\ columns df'
           = if has_column df "point_result" then columns df
             else columns df ++ ["point_result"%string]).
Proof.
  pose proof (assert_cols_single df winner_col) as Ha.
  unfold add_point_result. split.
  - intros Hn. destruct (has_column df winner_col) eqn:E.
    + apply has_column_In in E. contradiction.
    + destruct Ha as [msg ->]. exists msg. reflexivity.
  - intros victor Hv.
    assert (E : has_column df winner_col = true)
      by (apply has_column_getitem; eauto).
    rewrite E in Ha. rewrite Ha, Hv. simpl.
    eexists. eexists. split; [reflexivity|].
    split; [apply getitem_setitem_same|].
    split; [unfold where_scalar, eq_scalar; now rewrite !length_map|].
    split; [|split].
    + intros i Hi. rewrite where_scalar_nth
        by (unfold eq_scalar; rewrite length_map; exact Hi).
      unfold eq_scalar.
      change false with ((fun v => veqb v (Some 1)) None).
      rewrite map_nth.
      destruct (veqb (nth i victor None) (Some 1)) eqn:Ev.
      * left. split; [reflexivity|]. apply veqb_spec. exact Ev.
      * right. split; [reflexivity|]. intros Hx. apply veqb_spec in Hx.
        congruence.
    + intros c Hc. apply getitem_setitem_other. exact Hc.
    + apply columns_setitem.
Qed.

Lemma add_point_result_column_witness :
  exists df' pr,
    add_point_result example_frame "point_victor" = Ok df'
    /\ getitem df' "point_result" = Ok pr
    /\ length pr = 4%nat
    /\ (forall i : nat, (i < 4)%nat ->
          (nth i pr None = Some 1
           /\ exists x, nth i [Some 1; Some 2; Some 2; Some 2] None = Some x
                        /\ x == 1)
          \/ (nth i pr None = Some (-1)
              /\ ~ exists x, nth i [Some 1; Some 2; Some 2; Some 2] None
                             = Some x /\ x == 1))
    /\ (forall c, c <> "point_result"%string ->
          getitem df' c = getitem example_frame c)
    /\ columns df'
       = if has_column example_frame "point_result"
         then columns example_frame
         else columns example_frame ++ ["point_result"%string].
Proof.
  apply (proj2 (add_point_result_column example_frame "point_victor")
           [Some 1; Some 2; Some 2; Some 2]).
  reflexivity.
Defined.

Lemma add_serve_adjusted_contrib_inv (df : DataFrame)
  (server_col winner_col : string) (p_server_win : option value)
  (df' : DataFrame) (p : value) :
  add_serve_adjusted_contrib df server_col winner_col p_server_win
  = Ok (df', p) ->
  exists winner server server',
    getitem df winner_col = Ok winner
    /\ getitem df server_col = Ok server
    /\ (server_col <> "serve_wins"%string ->
        server_col <> "serve_adj"%string -> server' = server)
    /\ p = match p_server_win with
           | None => mean (astype_int (eq_series winner server))
           | Some p0 => p0
           end
    /\ getitem df' "serve_wins" = Ok (astype_int (eq_series winner server))
    /\ getitem df' "serve_adj"
       = Ok (where_scalar
               (eq_scalar (astype_int (eq_series winner server)) 1)
               (vsub (Some 1) p) (vneg p))
    /\ getitem df' "serve_adj_p1"
       = Ok (where_series (eq_scalar server' 1)
               (where_scalar
                  (eq_scalar (astype_int (eq_series winner server)) 1)
                  (vsub (Some 1) p) (vneg p))
               (map vneg
                  (where_scalar
                     (eq_scalar (astype_int (eq_series winner server)) 1)
                     (vsub (Some 1) p) (vneg p)))).
Proof.
  unfold add_serve_adjusted_contrib. intros H.
  apply bind_Ok in H. destruct H as [[] [_ H]].
  apply bind_Ok in H. destruct H as [winner [Hw H]].
  apply bind_Ok in H. destruct H as [server [Hs H]].
  set (sw := astype_int (eq_series winner server)) in *.
  apply bind_Ok in H. destruct H as [p0 [Hp H]].
  rewrite getitem_setitem_same in H. cbn [bind] in H.
  set (adj := where_scalar (eq_scalar sw 1) (vsub (Some 1) p0) (vneg p0))
    in *.
  apply bind_Ok in H. destruct H as [server' [Hs' H]].
  rewrite getitem_setitem_same in H. cbn [bind] in H.
  injection H as <- <-.
  assert (Ep : p0 = match p_server_win with
                    | None => mean sw
                    | Some p1 => p1
                    end).
  { destruct p_server_win as [p1|].
    - injection Hp as ->. reflexivity.
    - rewrite getitem_setitem_same in Hp. cbn [bind] in Hp.
      injection Hp as ->. reflexivity. }
  exists winner, server, server'.
  split; [exact Hw|]. split; [exact Hs|]. split; [|split; [exact Ep|]].
  - intros H1 H2.
    rewrite !getitem_setitem_other in Hs' by assumption. congruence.
  - split; [|split].
    + rewrite !getitem_setitem_other by discriminate.
      apply getitem_setitem_same.
    + rewrite getitem_setitem_other by discriminate.
      apply getitem_setitem_same.
    + apply getitem_setitem_same.
Qed.

Lemma astype_int_dropna (b : list bool) :
  dropna (astype_int b) = map b2q b.
Proof.
  induction b as [|[|] b IH]; simpl; [reflexivity| |]; now rewrite IH.
Qed.

Lemma eq_scalar_astype_int (b : list bool) :
  eq_scalar (astype_int b) 1 = b.
Proof.
  induction b as [|[|] b IH]; simpl; [reflexivity| |]; now rewrite IH.
Qed.

Lemma where_scalar_values (b : list bool) (x y : Q) :
  where_scalar b (Some x) (Some y)
  = map Some (map (fun c : bool => if c then x else y) b).
Proof.
  induction b as [|[|] b IH]; simpl; [reflexivity| |]; now rewrite IH.
Qed.

Lemma Qsum_wins (b : list bool) :
  0 <= Qsum (map b2q b)
  /\ Qsum (map b2q b) <= inject_Z (Z.of_nat (length b)).
Proof.
  induction b as [|c b [IH1 IH2]].
  - simpl. split; apply Qle_refl.
  - assert (E : inject_Z (Z.of_nat (length (c :: b)))
                == inject_Z (Z.of_nat (length b)) + 1).
    { simpl length. rewrite Nat2Z.inj_succ. unfold Z.succ.
      rewrite inject_Z_plus. reflexivity. }
    rewrite E. unfold Qsum in *. cbn [map fold_right].
    destruct c; cbn [b2q]; split; lra.
Qed.

(** X16.  With the serve win rate estimated from the match
    ([p_server_win] not given), the rate returned by
    [add_serve_adjusted_contrib] lies in [0, 1] and every cell of
    [serve_adj] is [1 - p] or [-p]; on a frame without rows the rate is
    NaN and the column is empty. *)
Theorem add_serve_adjusted_contrib_rate (df : DataFrame)
  (server_col winner_col : string) (df' : DataFrame) (p : value) :
  add_serve_adjusted_contrib df server_col winner_col None = Ok (df', p) ->
  exists adj : list Q,
    getitem df' "serve_adj" = Ok (map Some adj)
    /\ (p = None <-> adj = [])
    /\ forall q, p = Some q ->
         0 <= q /\ q <= 1
         /\ Forall (fun a => a == 1 - q \/ a == - q) adj.
Proof.
  intros H.
  destruct (add_serve_adjusted_contrib_inv _ _ _ _ _ _ H)
    as [winner [server [server' [_ [_ [_ [Ep [_ [Hadj _]]]]]]]]].
  rewrite eq_scalar_astype_int in Hadj.
  unfold mean, mean_valid in Ep. rewrite astype_int_dropna in Ep.
  destruct (eq_series winner server) as [|c b'].
  - subst p. exists []. split; [exact Hadj|].
    split; [tauto | discriminate].
  - set (b := c :: b') in *.
    change (p = Some (Qsum (map b2q b)
                      / inject_Z (Z.of_nat (length (map b2q b))))) in Ep.
    rewrite length_map in Ep.
    set (K := Qsum (map b2q b)) in *.
    set (n := inject_Z (Z.of_nat (length b))) in *.
    assert (Hn : 0 < n).
    { unfold n. change 0 with (inject_Z 0). rewrite <- Zlt_Qlt.
      unfold b. simpl length. lia. }
    subst p. simpl vsub in Hadj. simpl vneg in Hadj.
    rewrite where_scalar_values in Hadj.
    destruct (Qsum_wins b) as [HK0 HK1]. fold K n in HK0, HK1.
    eexists. split; [exact Hadj|]. split.
    + split; [discriminate|]. unfold b. simpl. discriminate.
    + intros q Eq. injection Eq as <-. split; [|split].
      * apply Qle_shift_div_l; lra.
      * apply Qle_shift_div_r; lra.
      * apply Forall_forall. intros a Ha. apply in_map_iff in Ha.
        destruct Ha as [[|] [<- _]]; [left | right]; reflexivity.
Qed.

Lemma add_serve_adjusted_contrib_rate_witness :
  exists adj : list Q,
    getitem
      [("server"%string, [Some 1; Some 1; Some 2; Some 2]);
       ("point_victor"%string, [Some 1; Some 2; Some 2; Some 2]);
       ("serve_wins"%string, [Some 1; Some 0; Some 1; Some 1]);
       ("serve_adj"%string,
        [Some (1 # 4); Some (-3 # 4); Some (1 # 4); Some (1 # 4)]);
       ("serve_adj_p1"%string,
        [Some (1 # 4); Some (-3 # 4); Some (-1 # 4); Some (-1 # 4)])]
      "serve_adj" = Ok (map Some adj)
    /\ (Some (3 # 4) = None <-> adj = [])
    /\ forall q, Some (3 # 4) = Some q ->
         0 <= q /\ q <= 1
         /\ Forall (fun a => a == 1 - q \/ a == - q) adj.
Proof.
  apply (add_serve_adjusted_contrib_rate example_frame "server"
           "point_victor").
  vm_compute. reflexivity.
Defined.

Lemma serve_adj_p1_cells (q : Q) (winner server : Series) :
  where_series (eq_scalar server 1)
    (where_scalar (eq_scalar (astype_int (eq_series winner server)) 1)
       (Some (1 - q)) (Some (- q)))
    (map vneg
       (where_scalar (eq_scalar (astype_int (eq_series winner server)) 1)
          (Some (1 - q)) (Some (- q))))
  = zip_with (player1_cell q) winner server.
Proof.
  rewrite eq_scalar_astype_int. unfold eq_series.
  revert server. induction winner as [|w winner IH]; intros [|s server];
    simpl; try reflexivity.
  rewrite IH. unfold player1_cell.
  destruct (veqb w s), (veqb s (Some 1)); reflexivity.
Qed.

Lemma zip_with_nth_error {A B C : Type} (f : A -> B -> C) (l : list A)
  (r : list B) (i : nat) (a : A) (b : B) (d : C) :
  nth_error l i = Some a -> nth_error r i = Some b ->
  nth i (zip_with f l r) d = f a b.
Proof.
  revert r i. induction l as [|x l IH]; intros [|y r] [|i]; simpl;
    try discriminate.
  - intros E1 E2. injection E1 as ->. injection E2 as ->. reflexivity.
  - apply IH.
Qed.

Lemma Qeq_bool_eq (x y : Q) : x == y -> Qeq_bool x y = true.
Proof. apply Qeq_bool_iff. Qed.

Lemma Qeq_bool_neq_false (x y : Q) : ~ x == y -> Qeq_bool x y = false.
Proof.
  intros H. destruct (Qeq_bool x y) eqn:E; [|reflexivity].
  apply Qeq_bool_iff in E. contradiction.
Qed.

(** X17.  When the server column keeps its own name (it is not one of the
    derived columns), [serve_adj_p1] has one cell per point, and on a point
    whose winner and server are both 1 or 2 the cell is the point result
    (+1 if player 1 won, -1 otherwise) times [1 - p] if the server won the
    point and times [p] if the receiver did. *)
Theorem add_serve_adjusted_contrib_player1 (df : DataFrame)
  (server_col winner_col : string) (p_server_win : option value)
  (df' : DataFrame) (q : Q) (winner server : Series) :
  server_col <> "serve_wins"%string ->
  server_col <> "serve_adj"%string ->
  getitem df winner_col = Ok winner ->
  getitem df server_col = Ok server ->
  add_serve_adjusted_contrib df server_col winner_col p_server_win
  = Ok (df', Some q) ->
  exists p1 : Series,
    getitem df' "serve_adj_p1" = Ok p1
    /\ length p1 = Nat.min (length winner) (length server)
    /\ forall (i : nat) (a b : Q),
         nth_error winner i = Some (Some a) ->
         nth_error server i = Some (Some b) ->
         a == 1 \/ a == 2 -> b == 1 \/ b == 2 ->
         exists y, nth i p1 None = Some y
                   /\ y == (if Qeq_bool a 1 then 1 else -1)
                           * (if Qeq_bool a b then 1 - q else q).
Proof.
  intros Hn1 Hn2 Hw Hs H.
  destruct (add_serve_adjusted_contrib_inv _ _ _ _ _ _ H)
    as [winner' [server0 [server' [Hw' [Hs' [Hsame [_ [_ [_ Hp1]]]]]]]]].
  rewrite Hw in Hw'. injection Hw' as <-.
  rewrite Hs in Hs'. injection Hs' as <-.
  rewrite (Hsame Hn1 Hn2) in Hp1. simpl vsub in Hp1. simpl vneg in Hp1.
  rewrite serve_adj_p1_cells in Hp1.
  eexists. split; [exact Hp1|]. split; [apply zip_with_length|].
  intros i a b Ha Hb Ha12 Hb12.
  rewrite (zip_with_nth_error (player1_cell q) winner server i _ _ None
             Ha Hb).
  unfold player1_cell. cbn [veqb].
  destruct Ha12 as [Ea | Ea], Hb12 as [Eb | Eb].
  - rewrite (Qeq_bool_eq a b), (Qeq_bool_eq b 1), (Qeq_bool_eq a 1)
      by (rewrite ?Ea, ?Eb; reflexivity).
    eexists. split; [reflexivity | ring].
  - rewrite (Qeq_bool_neq_false a b), (Qeq_bool_neq_false b 1),
      (Qeq_bool_eq a 1) by (rewrite ?Ea, ?Eb; try reflexivity; discriminate).
    eexists. split; [reflexivity | ring].
  - rewrite (Qeq_bool_neq_false a b), (Qeq_bool_eq b 1),
      (Qeq_bool_neq_false a 1)
      by (rewrite ?Ea, ?Eb; try reflexivity; discriminate).
    eexists. split; [reflexivity | ring].
  - rewrite (Qeq_bool_eq a b), (Qeq_bool_neq_false b 1),
      (Qeq_bool_neq_false a 1)
      by (rewrite ?Ea, ?Eb; try reflexivity; discriminate).
    eexists. split; [reflexivity | ring].
Qed.

Lemma add_serve_adjusted_contrib_player1_witness :
  exists p1 : Series,
    getitem
      [("server"%string, [Some 1; Some 1; Some 2; Some 2]);
       ("point_victor"%string, [Some 1; Some 2; Some 2; Some 2]);
       ("serve_wins"%string, [Some 1; Some 0; Some 1; Some 1]);
       ("serve_adj"%string,
        [Some (1 # 4); Some (-3 # 4); Some (1 # 4); Some (1 # 4)]);
       ("serve_adj_p1"%string,
        [Some (1 # 4); Some (-3 # 4); Some (-1 # 4); Some (-1 # 4)])]
      "serve_adj_p1" = Ok p1
    /\ length p1 = Nat.min 4 4
    /\ forall (i : nat) (a b : Q),
         nth_error [Some 1; Some 2; Some 2; Some 2] i = Some (Some a) ->
         nth_error [Some 1; Some 1; Some 2; Some 2] i = Some (Some b) ->
         a == 1 \/ a == 2 -> b == 1 \/ b == 2 ->
         exists y, nth i p1 None = Some y
                   /\ y == (if Qeq_bool a 1 then 1 else -1)
                           * (if Qeq_bool a b then 1 - (3 # 4) else 3 # 4).
Proof.
  apply (add_serve_adjusted_contrib_player1 example_frame "server"
           "point_victor" None _ (3 # 4)
           [Some 1; Some 2; Some 2; Some 2]
           [Some 1; Some 1; Some 2; Some 2]);
    try discriminate; try reflexivity.
Defined.

(** ** Exchanging the players *)

Lemma vabs_vneg (v : value) : vabs (vneg v) = vabs v.
Proof.
  destruct v as [[n d]|]; [|reflexivity]. simpl. unfold Qabs, Qopp. simpl.
  now rewrite Z.abs_opp.
Qed.

Lemma abs_negate (m : Series) : abs (negate m) = abs m.
Proof.
  unfold abs, negate. rewrite map_map. apply map_ext. apply vabs_vneg.
Qed.

Lemma isna_all_negate (m : Series) : isna_all (negate m) = isna_all m.
Proof.
  unfold isna_all, negate. induction m as [|[x|] m IH]; simpl; auto.
Qed.

Lemma opposite_vneg (v : value) : opposite (vneg v) v.
Proof. destruct v; simpl; [reflexivity | exact I]. Qed.

Lemma shift1_opposite (s t : Series) :
  Forall2 opposite s t -> Forall2 opposite (shift1 s) (shift1 t).
Proof.
  intros H. destruct H as [|a b s t Hab H]; [constructor|].
  unfold shift1. constructor; [exact I|].
  revert a b Hab. induction H as [|a' b' s t Hab' H IH]; intros a b Hab;
    [constructor|].
  change (removelast (a :: a' :: s)) with (a :: removelast (a' :: s)).
  change (removelast (b :: b' :: t)) with (b :: removelast (b' :: t)).
  constructor; [exact Hab|]. apply IH. exact Hab'.
Qed.

Lemma diff_negate (m : Series) :
  Forall2 opposite (diff (negate m)) (diff m).
Proof.
  unfold diff.
  assert (H : forall s t s' t',
             Forall2 opposite s t -> Forall2 opposite s' t' ->
             Forall2 opposite (zip_with vsub s s') (zip_with vsub t t')).
  { intros s t s' t' H. revert s' t'.
    induction H as [|a b s t Hab H IH]; intros s' t' H';
      [destruct H'; constructor|].
    destruct H' as [|a' b' s' t' Hab' H']; simpl; constructor.
    - destruct a, b, a', b'; simpl in *; try tauto.
      rewrite Hab, Hab'. ring.
    - apply IH. exact H'. }
  assert (Hn : Forall2 opposite (negate m) m).
  { unfold negate. induction m; constructor; auto using opposite_vneg. }
  apply H; [exact Hn | apply shift1_opposite; exact Hn].
Qed.

Lemma ewm_step_opposite (com f : Q) (s t : ewm_state) (c d : value) :
  opposite_states s t -> opposite c d ->
  opposite_states (ewm_step com f s c) (ewm_step com f t d).
Proof.
  intros [Hw [Ho [Hnw Hn]]] Hc. unfold ewm_step.
  assert (Hna : isna c = isna d) by (destruct c, d; simpl in *; tauto).
  rewrite Hn, Hna.
  destruct (weighted s) as [w|], (weighted t) as [w'|]; simpl in Hw;
    try contradiction.
  - destruct c as [x|], d as [x'|]; simpl in Hc; try contradiction.
    + assert (Eg : Qeq_bool w x = Qeq_bool w' x').
      { destruct (Qeq_bool w' x') eqn:E.
        - apply Qeq_bool_iff in E. apply Qeq_bool_iff.
          rewrite Hw, Hc, E. reflexivity.
        - apply Qeq_bool_neq_false. apply Qeq_bool_false in E.
          intros E'. apply E. rewrite Hw, Hc in E'. lra. }
      rewrite Eg. destruct (Qeq_bool w' x').
      * split; [exact Hw|]. split; [reflexivity|].
        split; [exact Hnw | reflexivity].
      * destruct (Qeq_bool com 1);
          (split; [|split; [reflexivity|split; [|reflexivity]]]); simpl.
        -- rewrite Hw, Hc, Ho. unfold Qdiv. ring.
        -- rewrite Ho. reflexivity.
        -- rewrite Hw, Hc, Ho, Hnw. unfold Qdiv. ring.
        -- exact Hnw.
    + split; [exact Hw|]. split; [simpl; rewrite Ho; reflexivity|].
      split; [exact Hnw | reflexivity].
  - split; [exact Hc|]. split; [exact Ho|].
    split; [exact Hnw | reflexivity].
Qed.

Lemma ewm_output_opposite (s t : ewm_state) :
  opposite_states s t -> opposite (ewm_output s) (ewm_output t).
Proof.
  intros [Hw [_ [_ Hn]]]. unfold ewm_output. rewrite Hn.
  destruct (1 <=? ewm_nobs t)%nat; [exact Hw | exact I].
Qed.

Lemma ewm_loop_opposite (com f : Q) (cs ds : Series) :
  Forall2 opposite cs ds ->
  forall s t, opposite_states s t ->
    Forall2 opposite (ewm_loop com f s cs) (ewm_loop com f t ds).
Proof.
  induction 1 as [|c d cs ds Hc _ IH]; intros s t Hst; simpl; constructor.
  - apply ewm_output_opposite, ewm_step_opposite; assumption.
  - apply IH. apply ewm_step_opposite; assumption.
Qed.

Lemma replace_zero_nan_opposite (s t : Series) :
  Forall2 opposite s t ->
  Forall2 opposite (replace_zero_nan s) (replace_zero_nan t).
Proof.
  induction 1 as [|a b s t Hab _ IH]; simpl; constructor; [|exact IH].
  destruct a as [x|], b as [y|]; simpl in Hab; try contradiction; [|exact I].
  assert (E : Qeq_bool x 0 = Qeq_bool y 0).
  { destruct (Qeq_bool y 0) eqn:E.
    - apply Qeq_bool_iff in E. apply Qeq_bool_iff. rewrite Hab, E.
      reflexivity.
    - apply Qeq_bool_neq_false. apply Qeq_bool_false in E.
      intros E'. apply E. rewrite Hab in E'. lra. }
  rewrite E. destruct (Qeq_bool y 0); [exact I | exact Hab].
Qed.

Lemma ffill_from_opposite (s t : Series) :
  Forall2 opposite s t ->
  forall a b, opposite a b ->
    Forall2 opposite (ffill_from a s) (ffill_from b t).
Proof.
  induction 1 as [|c d s t Hcd _ IH]; intros a b Hab; simpl;
    [constructor|].
  destruct c as [x|], d as [y|]; simpl in Hcd; try contradiction;
    constructor; auto.
Qed.

Lemma ewm_mean_opposite (s t : Series) (span : Z) :
  Forall2 opposite s t ->
  match ewm_mean s span, ewm_mean t span with
  | Ok a, Ok b => Forall2 opposite a b
  | Raise e, Raise e' => e = e'
  | _, _ => False
  end.
Proof.
  intros H. unfold ewm_mean. destruct (span <? 1)%Z; [reflexivity|].
  destruct H as [|c d cs ds Hc Hd]; [constructor|].
  assert (Hst : opposite_states (ewm_init (ewm_alpha span) c)
                               (ewm_init (ewm_alpha span) d)).
  { unfold ewm_init. split; [exact Hc|]. split; [reflexivity|].
    split; [reflexivity|]. destruct c, d; simpl in *; tauto. }
  constructor; [apply ewm_output_opposite; exact Hst|].
  apply ewm_loop_opposite; assumption.
Qed.

Lemma trend_signal_negate (m : Series) (params : SwingParams) :
  match trend_signal (negate m) params, trend_signal m params with
  | Ok s, Ok t => Forall2 opposite s t
  | Raise e, Raise e' => e = e'
  | _, _ => False
  end.
Proof.
  unfold trend_signal.
  pose proof (ewm_mean_opposite _ _ (trend_span params) (diff_negate m))
    as Hraw.
  destruct (ewm_mean (diff (negate m)) (trend_span params)) as [a|e],
    (ewm_mean (diff m) (trend_span params)) as [b|e'];
    try contradiction; cbn [bind]; [|exact Hraw].
  destruct (fill_zero_trend params); [|exact Hraw].
  apply ffill_from_opposite; [|exact I].
  apply replace_zero_nan_opposite. exact Hraw.
Qed.

Lemma sign_tests_cell (a b : value) :
  opposite a b ->
  vgt a zero = vlt b zero /\ vlt a zero = vgt b zero
  /\ vle a zero = vge b zero /\ vge a zero = vle b zero.
Proof.
  destruct a as [x|], b as [y|]; simpl; try contradiction;
    [|repeat split].
  intros Hab. unfold vle, vlt, vge, vgt, zero, Qltb.
  assert (E1 : Qle_bool x 0 = Qle_bool 0 y).
  { destruct (Qle_bool 0 y) eqn:E.
    - apply Qle_bool_iff in E. apply Qle_bool_iff. lra.
    - destruct (Qle_bool x 0) eqn:E'; [|reflexivity].
      apply Qle_bool_iff in E'.
      assert (Hy : 0 <= y) by lra. apply Qle_bool_iff in Hy. congruence. }
  assert (E2 : Qle_bool 0 x = Qle_bool y 0).
  { destruct (Qle_bool y 0) eqn:E.
    - apply Qle_bool_iff in E. apply Qle_bool_iff. lra.
    - destruct (Qle_bool 0 x) eqn:E'; [|reflexivity].
      apply Qle_bool_iff in E'.
      assert (Hy : y <= 0) by lra. apply Qle_bool_iff in Hy. congruence. }
  rewrite E1, E2. repeat split.
Qed.

Lemma sign_tests_opposite (s t : Series) :
  Forall2 opposite s t ->
  map (fun v => vgt v zero) s = map (fun v => vlt v zero) t
  /\ map (fun v => vlt v zero) s = map (fun v => vgt v zero) t
  /\ map (fun v => vle v zero) s = map (fun v => vge v zero) t
  /\ map (fun v => vge v zero) s = map (fun v => vle v zero) t.
Proof.
  induction 1 as [|a b s t Hab _ [IH1 [IH2 [IH3 IH4]]]];
    [repeat split|].
  destruct (sign_tests_cell a b Hab) as [H1 [H2 [H3 H4]]].
  cbn [map]. repeat split; f_equal; assumption.
Qed.

Lemma zip_with_orb_comm (l r : list bool) :
  zip_with orb l r = zip_with orb r l.
Proof.
  revert r. induction l as [|a l IH]; intros [|b r]; simpl;
    try reflexivity.
  now rewrite IH, orb_comm.
Qed.

Lemma reversal_opposite (s t : Series) :
  Forall2 opposite s t -> reversal s = reversal t.
Proof.
  intros H. unfold reversal.
  destruct (sign_tests_opposite s t H) as [_ [_ [E3 E4]]].
  destruct (sign_tests_opposite _ _ (shift1_opposite s t H))
    as [E1 [E2 _]].
  rewrite E1, E2, E3, E4. apply zip_with_orb_comm.
Qed.

Lemma iloc_map {A B : Type} (f : A -> B) (s : list A) (p : Z) :
  iloc (map f s) p = match iloc s p with
                     | Ok v => Ok (f v)
                     | Raise e => Raise e
                     end.
Proof.
  unfold iloc. rewrite length_map.
  destruct (_ || _); [reflexivity|].
  rewrite nth_error_map. destruct (nth_error s _); reflexivity.
Qed.

Lemma abs_at_negate (m : Series) (p : Z) :
  abs_at (negate m) p = abs_at m p.
Proof.
  unfold abs_at, negate. rewrite iloc_map.
  destruct (iloc m p); simpl; [|reflexivity]. now rewrite vabs_vneg.
Qed.

Lemma max_from_negate (m : Series) (group : list Z) :
  forall b kb, max_from (negate m) b kb group = max_from m b kb group.
Proof.
  induction group as [|p group IH]; intros b kb; simpl; [reflexivity|].
  rewrite abs_at_negate. destruct (abs_at m p) as [k|]; simpl;
    [|reflexivity].
  destruct (vgt k kb); apply IH.
Qed.

Lemma max_by_abs_negate (m : Series) (group : list Z) :
  max_by_abs (negate m) group = max_by_abs m group.
Proof.
  destruct group as [|p group]; simpl; [reflexivity|].
  rewrite abs_at_negate. destruct (abs_at m p); simpl; [|reflexivity].
  apply max_from_negate.
Qed.

Lemma compress_loop_negate (m : Series) (n : nat) :
  forall l, (length l <= n)%nat ->
    compress_loop (negate m) l = compress_loop m l.
Proof.
  induction n as [|n IH]; intros l Hl.
  - destruct l; [|simpl in Hl; lia]. now rewrite !compress_loop_equation_1.
  - destruct l as [|p rest]; [now rewrite !compress_loop_equation_1|].
    rewrite !compress_loop_cons, max_by_abs_negate.
    destruct (max_by_abs m _); [|reflexivity].
    rewrite IH; [reflexivity|].
    pose proof (extend_group_spec rest p _ _
                  (surjective_pairing (extend_group p rest))) as [E _].
    apply (f_equal (@length Z)) in E. rewrite length_app in E.
    simpl in Hl. lia.
Qed.

Lemma cooldown_loop_negate (m : Series) (cool : Z) (todo : list Z) :
  forall final_rev,
    cooldown_loop (negate m) cool final_rev todo
    = cooldown_loop m cool final_rev todo.
Proof.
  induction todo as [|p todo IH]; intros final_rev; simpl; [reflexivity|].
  destruct final_rev as [|last before]; [reflexivity|].
  destruct (cool <=? p - last)%Z; [apply IH|].
  rewrite !abs_at_negate.
  destruct (abs_at m p); simpl; [|reflexivity].
  destruct (abs_at m last); simpl; [|reflexivity].
  destruct (vgt _ _); apply IH.
Qed.

Lemma mapM_ext {A B : Type} (f g : A -> result B) (l : list A) :
  (forall a, f a = g a) -> mapM f l = mapM g l.
Proof.
  intros H. induction l as [|a l IH]; simpl; [reflexivity|].
  now rewrite H, IH.
Qed.

(** X18.  The detector does not depend on the player whose advantage the
    momentum measures: negating every cell of the series gives the same
    flags, the same kept positions, the same threshold, and the same error
    when it raises. *)
Theorem detect_swings_negate (m : Series) (params : SwingParams) :
  detect_swings (negate m) params = detect_swings m params.
Proof.
  unfold detect_swings. rewrite isna_all_negate.
  destruct (isna_all m); [reflexivity|].
  pose proof (trend_signal_negate m params) as Ht.
  destruct (trend_signal (negate m) params) as [s|e],
    (trend_signal m params) as [t|e']; try contradiction;
    [|subst; reflexivity].
  simpl. rewrite (reversal_opposite s t Ht), abs_negate.
  destruct (quantile (abs m) (amp_q params)) as [thr|]; simpl;
    [|reflexivity].
  assert (Ec : candidate_mask (negate m) (reversal t) thr
               = candidate_mask m (reversal t) thr).
  { unfold candidate_mask. now rewrite abs_negate. }
  rewrite Ec.
  rewrite (mapM_ext (get_loc (negate m)) (get_loc m))
    by (intros a; unfold get_loc, negate; now rewrite length_map).
  destruct (mapM (get_loc m) _) as [pos_idx|]; simpl; [|reflexivity].
  rewrite !compress_consecutive_unfold,
    (compress_loop_negate m _ _ (le_n _)).
  destruct (compress_loop m (sorted pos_idx)) as [reps|]; simpl;
    [|reflexivity].
  unfold _apply_cooldown_keep_max_abs.
  destruct (sorted reps) as [|first others]; simpl.
  - unfold negate. now rewrite length_map.
  - rewrite cooldown_loop_negate. unfold negate. now rewrite length_map.
Qed.
